(** * lfring: the node-based multi-producer multi-consumer ring buffer

    A shallow embedding of [node_based.go] and the properties of its
    sequential behaviour.

    The buffer is a record of two position counters, a mask and a slice
    of nodes; every node carries a [step] (its stamp) and a [value].
    All counters are Go [uint64]: they are modelled as [Z] with the
    wrap-around of every addition written out ([u64]).

    The embedding follows one thread through each call.  The atomic
    loads, stores and compare-and-swaps are kept where the source has
    them; with no other thread between a load and the matching
    compare-and-swap, the swap finds the value that was loaded.

    A slice index out of range makes Go panic: calls return an
    [outcome], which is [Done] with the results, [Panic], or [Spin]
    when a loop was still running as the fuel ran out.  Allocation
    ([make]) is taken to succeed. *)

From stdpp Require Import base list.
From Stdlib Require Import ZArith Lia Znumtheory.

Local Open Scope Z_scope.

(** ** uint64 arithmetic *)

Definition modulus : Z := 2 ^ 64.

(** Wrap a mathematical integer into the range of a [uint64]. *)
Definition u64 (x : Z) : Z := x mod modulus.

(** The unsigned distance from [b] up to [a]: [a - b] on [uint64]. *)
Definition distance (a b : Z) : Z := u64 (a - b).

(** [atomic.CompareAndSwapUint64(addr, old, new)]: the new content of
    the address and whether the swap happened. *)
Definition CompareAndSwapUint64 (cur old new : Z) : Z * bool :=
  if cur =? old then (new, true) else (cur, false).

(** ** Outcomes of a call *)

Inductive outcome (A : Type) : Type :=
| Done (a : A)
| Panic
| Spin.

Arguments Done {A} a.
Arguments Panic {A}.
Arguments Spin {A}.

Section RingBuffer.

(** The payload type and its Go zero value. *)
Context {T : Type}.
Variable zero : T.

(** ** Data model *)

Record node : Type := mkNode { step : Z; value : T }.

Record nodeBased : Type := mkNodeBased {
  head : Z;
  tail : Z;
  mask : Z;
  element : list node
}.

Definition set_head (r : nodeBased) (h : Z) : nodeBased :=
  mkNodeBased h (tail r) (mask r) (element r).

Definition set_tail (r : nodeBased) (t : Z) : nodeBased :=
  mkNodeBased (head r) t (mask r) (element r).

(** [*r.element[i] = nd]: the node behind the [i]-th pointer is
    overwritten; the pointers of the slice are pairwise distinct. *)
Definition set_node (r : nodeBased) (i : Z) (nd : node) : nodeBased :=
  mkNodeBased (head r) (tail r) (mask r) (<[Z.to_nat i := nd]> (element r)).

(** [r.element[i]], [None] when the index is out of range. *)
Definition get_node (r : nodeBased) (i : Z) : option node :=
  element r !! Z.to_nat i.

(** ** Construction *)

Definition newNodeBased (capacity : Z) : nodeBased :=
  let nodes := (fun i : nat => mkNode (Z.of_nat i) zero) <$> seq 0 (Z.to_nat capacity) in
  mkNodeBased 0 0 (u64 (capacity - 1)) nodes.

(** ** Offer *)

Definition Offer (r : nodeBased) (v : T) : outcome (nodeBased * bool) :=
  let oldTail := tail r in
  let idx := Z.land oldTail (mask r) in
  match get_node r idx with
  | None => Panic
  | Some tailNode =>
    let oldStep := step tailNode in
    if negb (oldStep =? oldTail) then Done (r, false)
    else
      let '(newTail, swapped) :=
        CompareAndSwapUint64 (tail r) oldTail (u64 (oldTail + 1)) in
      if negb swapped then Done (r, false)
      else
        let r1 := set_tail r newTail in
        let r2 := set_node r1 idx (mkNode (step tailNode) v) in
        let r3 := set_node r2 idx (mkNode (u64 (step tailNode + 1)) v) in
        Done (r3, true)
  end.

(** ** Poll *)

Definition Poll (r : nodeBased) : outcome (nodeBased * T * bool) :=
  let oldHead := head r in
  let idx := Z.land oldHead (mask r) in
  match get_node r idx with
  | None => Panic
  | Some headNode =>
    let oldStep := step headNode in
    if negb (oldStep =? u64 (oldHead + 1)) then Done (r, zero, false)
    else
      let '(newHead, swapped) :=
        CompareAndSwapUint64 (head r) oldHead (u64 (oldHead + 1)) in
      if negb swapped then Done (r, zero, false)
      else
        let r1 := set_head r newHead in
        let v := value headNode in
        let r2 := set_node r1 idx (mkNode (u64 (oldStep + mask r)) (value headNode)) in
        Done (r2, v, true)
  end.

(** ** SingleProducerOffer

    The supplier is a Go closure: it is modelled by its private state
    [S] and the function [valueSupplier] from that state to the pair it
    returns and its next state. *)

(** [for !r.Offer(v) {}] *)
Fixpoint spinOffer (fuel : nat) (r : nodeBased) (v : T) : outcome nodeBased :=
  match fuel with
  | O => Spin
  | S fuel' =>
    match Offer r v with
    | Done (r', true) => Done r'
    | Done (r', false) => spinOffer fuel' r' v
    | Panic => Panic
    | Spin => Spin
    end
  end.

Fixpoint SingleProducerOffer {S : Type} (fuel : nat)
    (valueSupplier : S -> (T * bool) * S) (s : S) (r : nodeBased)
    : outcome (nodeBased * S) :=
  match fuel with
  | O => Spin
  | Datatypes.S fuel' =>
    let '((v, finish), s') := valueSupplier s in
    if finish then Done (r, s')
    else
      match spinOffer fuel' r v with
      | Done r' => SingleProducerOffer fuel' valueSupplier s' r'
      | Panic => Panic
      | Spin => Spin
      end
  end.

(** ** SingleConsumerPoll

    The consumer is a Go closure without a result: it is modelled by
    its private state [S] and the function [valueConsumer] that gives
    its state after it was handed a value. *)

Fixpoint SingleConsumerPoll {S : Type} (fuel : nat)
    (valueConsumer : S -> T -> S) (s : S) (r : nodeBased)
    : outcome (nodeBased * S) :=
  match fuel with
  | O => Spin
  | Datatypes.S fuel' =>
    match Poll r with
    | Done (r', v, success) =>
      if negb success then Done (r', s)
      else SingleConsumerPoll fuel' valueConsumer (valueConsumer s v) r'
    | Panic => Panic
    | Spin => Spin
    end
  end.

(** ** SingleConsumerPollVec

    [ret] is the slice of the caller, written in place.  [cnt] is a Go
    [int] that stays below [len(ret)], so it never wraps. *)

(** [for ; cnt < len(ret); cnt++] *)
Fixpoint SingleConsumerPollVec_loop (fuel : nat) (r : nodeBased)
    (ret : list T) (cnt : Z) : outcome (nodeBased * list T * Z) :=
  match fuel with
  | O => Spin
  | S fuel' =>
    if cnt <? Z.of_nat (length ret) then
      match Poll r with
      | Done (r', v, success) =>
        if negb success then Done (r', ret, cnt)
        else SingleConsumerPollVec_loop fuel' r' (<[Z.to_nat cnt := v]> ret) (cnt + 1)
      | Panic => Panic
      | Spin => Spin
      end
    else Done (r, ret, cnt)
  end.

Definition SingleConsumerPollVec (fuel : nat) (r : nodeBased) (ret : list T)
    : outcome (nodeBased * list T * Z) :=
  match SingleConsumerPollVec_loop fuel r ret 0 with
  | Done (r', ret', cnt) => Done (r', ret', u64 cnt)
  | Panic => Panic
  | Spin => Spin
  end.

(** ** PollNBatched *)

(** The scan of the ready slots:
    [for i := 0; i < n-count && available < 8; i++]. *)
Fixpoint scan (fuel : nat) (r : nodeBased) (oldHead limit i available : Z)
    : outcome Z :=
  match fuel with
  | O => Spin
  | S fuel' =>
    if (i <? limit) && (available <? 8) then
      let nodeIdx := Z.land (u64 (oldHead + i)) (mask r) in
      match get_node r nodeIdx with
      | None => Panic
      | Some nd =>
        if negb (step nd =? u64 (u64 (oldHead + i) + 1)) then Done available
        else scan fuel' r oldHead limit (u64 (i + 1)) (u64 (available + 1))
      end
    else Done available
  end.

(** The extraction of a claimed batch:
    [for i := 0; i < available; i++], with [todo] iterations left. *)
Fixpoint extract (todo : nat) (r : nodeBased) (oldHead i : Z) (values : list T)
    : outcome (nodeBased * list T) :=
  match todo with
  | O => Done (r, values)
  | S todo' =>
    let nodeIdx := Z.land (u64 (oldHead + i)) (mask r) in
    match get_node r nodeIdx with
    | None => Panic
    | Some nd =>
      let values' := values ++ [value nd] in
      let r' := set_node r nodeIdx (mkNode (u64 (step nd + mask r)) (value nd)) in
      extract todo' r' oldHead (u64 (i + 1)) values'
    end
  end.

(** The scan stops by itself within nine rounds. *)
Definition scan_fuel : nat := 9.

(** [for count < n { ... }] *)
Fixpoint PollNBatched_loop (fuel : nat) (r : nodeBased) (n : Z)
    (values : list T) (count : Z) : outcome (nodeBased * list T * Z) :=
  match fuel with
  | O => Spin
  | S fuel' =>
    if count <? n then
      let oldHead := head r in
      match scan scan_fuel r oldHead (u64 (n - count)) 0 0 with
      | Panic => Panic
      | Spin => Spin
      | Done available =>
        if available =? 0 then Done (r, values, count)
        else
          let '(newHead, swapped) :=
            CompareAndSwapUint64 (head r) oldHead (u64 (oldHead + available)) in
          if negb swapped then PollNBatched_loop fuel' r n values count
          else
            match extract (Z.to_nat available) (set_head r newHead) oldHead 0 values with
            | Panic => Panic
            | Spin => Spin
            | Done (r', values') =>
              PollNBatched_loop fuel' r' n values' (u64 (count + available))
            end
      end
    else Done (r, values, count)
  end.

Definition PollNBatched (fuel : nat) (r : nodeBased) (n : Z)
    : outcome (nodeBased * list T * Z) :=
  if n =? 0 then Done (r, [], 0)
  else PollNBatched_loop fuel r n [] 0.

(** ** Sequences of calls *)

Inductive call : Type :=
| CallOffer (v : T)
| CallPoll
| CallPollNBatched (n : Z).

Inductive answer : Type :=
| OfferResult (success : bool)
| PollResult (v : T) (success : bool)
| BatchResult (values : list T) (count : Z).

(** One call on the buffer.  [PollNBatched] gets one round of fuel more
    than the items it is asked for, which its loop never exceeds. *)
Definition perform (r : nodeBased) (c : call) : outcome (nodeBased * answer) :=
  match c with
  | CallOffer v =>
    match Offer r v with
    | Done (r', b) => Done (r', OfferResult b)
    | Panic => Panic
    | Spin => Spin
    end
  | CallPoll =>
    match Poll r with
    | Done (r', v, b) => Done (r', PollResult v b)
    | Panic => Panic
    | Spin => Spin
    end
  | CallPollNBatched n =>
    match PollNBatched (S (Z.to_nat n)) r n with
    | Done (r', vs, c) => Done (r', BatchResult vs c)
    | Panic => Panic
    | Spin => Spin
    end
  end.

(** The calls of [cs] one after the other, with their answers. *)
Fixpoint run (cs : list call) (r : nodeBased) : outcome (nodeBased * list answer) :=
  match cs with
  | [] => Done (r, [])
  | c :: cs' =>
    match perform r c with
    | Done (r1, a) =>
      match run cs' r1 with
      | Done (r2, answers) => Done (r2, a :: answers)
      | Panic => Panic
      | Spin => Spin
      end
    | Panic => Panic
    | Spin => Spin
    end
  end.

(** ** The bounded queue the buffer stands for

    A reference model, not taken from the source: a queue of at most
    [C] values, oldest first, and what each call answers on it. *)

Definition queue_perform (C : Z) (q : list T) (c : call) : list T * answer :=
  match c with
  | CallOffer v =>
    if Z.of_nat (length q) <? C then (q ++ [v], OfferResult true)
    else (q, OfferResult false)
  | CallPoll =>
    match q with
    | [] => ([], PollResult zero false)
    | v :: q' => (q', PollResult v true)
    end
  | CallPollNBatched n =>
    (drop (Z.to_nat n) q,
     BatchResult (take (Z.to_nat n) q) (Z.of_nat (Nat.min (Z.to_nat n) (length q))))
  end.

Fixpoint queue_run (C : Z) (cs : list call) (q : list T) : list T * list answer :=
  match cs with
  | [] => (q, [])
  | c :: cs' =>
    let '(q1, a) := queue_perform C q c in
    let '(q2, answers) := queue_run C cs' q1 in
    (q2, a :: answers)
  end.

(** The argument of a call is a [uint64]. *)
Definition call_ok (c : call) : Prop :=
  match c with
  | CallPollNBatched n => 0 <= n < modulus
  | _ => True
  end.

(** [k] sequential [Poll] calls that all succeed: the values they
    return, in the order of the calls, and the buffer they leave. *)
Fixpoint pollSeq (k : nat) (r : nodeBased) : option (list T * nodeBased) :=
  match k with
  | O => Some ([], r)
  | S k' =>
    match Poll r with
    | Done (r1, v, true) =>
      match pollSeq k' r1 with
      | Some (vs, r2) => Some (v :: vs, r2)
      | None => None
      end
    | _ => None
    end
  end.

(** The values of [vs] offered one after the other, every [Offer]
    successful: the buffer they leave. *)
Fixpoint offerSeq (vs : list T) (r : nodeBased) : option nodeBased :=
  match vs with
  | [] => Some r
  | v :: vs' =>
    match Offer r v with
    | Done (r1, true) => offerSeq vs' r1
    | _ => None
    end
  end.

(** The results of [k] successive calls of a supplier, and its state
    after them. *)
Fixpoint supplier_run {S : Type} (valueSupplier : S -> (T * bool) * S)
    (k : nat) (s : S) : list (T * bool) * S :=
  match k with
  | O => ([], s)
  | Datatypes.S k' =>
    let '(res, s1) := valueSupplier s in
    let '(rest, s2) := supplier_run valueSupplier k' s1 in
    (res :: rest, s2)
  end.

(** ** Well-formed buffers *)

(** The counters are [uint64] and the mask is an index of the slice. *)
Definition bounds (r : nodeBased) : Prop :=
  0 <= head r < modulus /\ 0 <= tail r < modulus /\
  0 <= mask r < Z.of_nat (length (element r)).

(** The buffer a successful [Offer] leaves. *)
Definition offered (r : nodeBased) (v : T) : nodeBased :=
  let idx := Z.land (tail r) (mask r) in
  set_node (set_node (set_tail r (u64 (tail r + 1))) idx (mkNode (tail r) v))
    idx (mkNode (u64 (tail r + 1)) v).

(** The buffer a successful [Poll] leaves, [nd] being the node at the
    head. *)
Definition polled (r : nodeBased) (nd : node) : nodeBased :=
  set_node (set_head r (u64 (head r + 1))) (Z.land (head r) (mask r))
    (mkNode (u64 (step nd + mask r)) (value nd)).

(** The slot of position [p] carries a published value: its stamp is
    [p + 1]. *)
Definition ready_at (r : nodeBased) (p : Z) : Prop :=
  exists nd, get_node r (Z.land p (mask r)) = Some nd /\ step nd = u64 (p + 1).

(** The slot protocol of a buffer of capacity [C] that has seen [H]
    successful polls and holds the queue [q] of values offered and not
    yet polled, oldest first.  [H] and [H + length q] are the
    unwrapped head and tail.  For every position [p] of the window
    [H .. H + C - 1], the slot [p mod C] is either published with the
    stamp [p + 1] and the value of [q] for [p], or free with the stamp
    [p]. *)
Definition slot_ok (C H : Z) (q : list T) (r : nodeBased) (p : Z) : Prop :=
  exists nd, get_node r (p mod C) = Some nd /\
    (p < H + Z.of_nat (length q) ->
       step nd = u64 (p + 1) /\ q !! Z.to_nat (p - H) = Some (value nd)) /\
    (H + Z.of_nat (length q) <= p -> step nd = u64 p).

Definition Inv (C H : Z) (q : list T) (r : nodeBased) : Prop :=
  mask r = C - 1 /\
  Z.of_nat (length (element r)) = C /\
  0 <= H /\
  head r = u64 H /\
  tail r = u64 (H + Z.of_nat (length q)) /\
  Z.of_nat (length q) <= C /\
  forall p, H <= p < H + C -> slot_ok C H q r p.

End RingBuffer.

Arguments node T : clear implicits.
Arguments nodeBased T : clear implicits.
Arguments call T : clear implicits.
Arguments answer T : clear implicits.

(** * Properties *)

(** ** Arithmetic of the counters *)

Lemma modulus_eq : modulus = 18446744073709551616.
Proof. reflexivity. Qed.

Lemma u64_range x : 0 <= u64 x < modulus.
Proof. unfold u64. apply Z.mod_pos_bound. rewrite modulus_eq. lia. Qed.

Lemma u64_small x : 0 <= x < modulus -> u64 x = x.
Proof. intros. unfold u64. now apply Z.mod_small. Qed.

Lemma u64_add_l a b : u64 (u64 a + b) = u64 (a + b).
Proof. unfold u64. apply Zplus_mod_idemp_l. Qed.

Lemma u64_add_r a b : u64 (a + u64 b) = u64 (a + b).
Proof. unfold u64. apply Zplus_mod_idemp_r. Qed.

(** Two offsets below the modulus that wrap to the same counter are
    the same offset. *)
Lemma u64_offset_inj a i j :
  u64 (a + i) = u64 (a + j) -> - modulus < i - j < modulus -> i = j.
Proof.
  unfold u64. rewrite modulus_eq. intros E Hr.
  pose proof (Z.div_mod (a + i) 18446744073709551616 ltac:(lia)) as H1.
  pose proof (Z.div_mod (a + j) 18446744073709551616 ltac:(lia)) as H2.
  rewrite E in H1. lia.
Qed.

Lemma land_range x m : 0 <= x -> 0 <= m -> 0 <= Z.land x m <= m.
Proof.
  intros Hx Hm. split.
  - apply Z.land_nonneg. now left.
  - rewrite <- (Z2N.id x), <- (Z2N.id m) by assumption.
    rewrite <- N2Z.inj_land. apply N2Z.inj_le, N.land_le_r.
Qed.

(** ** One call of Offer and of Poll *)

Section Calls.

Context {T : Type}.
Variable zero : T.
Implicit Types (r : nodeBased T) (nd : node T) (v : T).

Lemma get_node_bounds r x :
  bounds r -> 0 <= x -> exists nd, get_node r (Z.land x (mask r)) = Some nd.
Proof.
  intros (_ & _ & Hm) Hx. unfold get_node.
  destruct (lookup_lt_is_Some_2 (element r) (Z.to_nat (Z.land x (mask r)))) as [nd E].
  - pose proof (land_range x (mask r) Hx ltac:(lia)). lia.
  - now exists nd.
Qed.

Lemma Offer_free r v nd :
  get_node r (Z.land (tail r) (mask r)) = Some nd -> step nd = tail r ->
  Offer r v = Done (offered r v, true).
Proof.
  intros E Hs. unfold Offer, CompareAndSwapUint64. rewrite E, Hs.
  rewrite Z.eqb_refl. reflexivity.
Qed.

Lemma Offer_busy r v nd :
  get_node r (Z.land (tail r) (mask r)) = Some nd -> step nd <> tail r ->
  Offer r v = Done (r, false).
Proof.
  intros E Hs. unfold Offer. rewrite E.
  apply Z.eqb_neq in Hs. now rewrite Hs.
Qed.

Lemma Offer_cases r v r' b :
  Offer r v = Done (r', b) ->
  exists nd, get_node r (Z.land (tail r) (mask r)) = Some nd /\
    ((b = true /\ step nd = tail r /\ r' = offered r v) \/
     (b = false /\ step nd <> tail r /\ r' = r)).
Proof.
  intros E. destruct (get_node r (Z.land (tail r) (mask r))) as [nd|] eqn:G.
  - exists nd. split; [reflexivity|].
    destruct (Z.eq_dec (step nd) (tail r)) as [Hs|Hs].
    + rewrite (Offer_free r v nd G Hs) in E. inversion E; subst. left; auto.
    + rewrite (Offer_busy r v nd G Hs) in E. inversion E; subst. right; auto.
  - unfold Offer in E. now rewrite G in E.
Qed.

Lemma Poll_ready r nd :
  get_node r (Z.land (head r) (mask r)) = Some nd -> step nd = u64 (head r + 1) ->
  Poll zero r = Done (polled r nd, value nd, true).
Proof.
  intros E Hs. unfold Poll, CompareAndSwapUint64. rewrite E.
  rewrite (proj2 (Z.eqb_eq _ _) Hs), Z.eqb_refl. reflexivity.
Qed.

Lemma Poll_not_ready r nd :
  get_node r (Z.land (head r) (mask r)) = Some nd -> step nd <> u64 (head r + 1) ->
  Poll zero r = Done (r, zero, false).
Proof.
  intros E Hs. unfold Poll. rewrite E.
  apply Z.eqb_neq in Hs. now rewrite Hs.
Qed.

Lemma Poll_cases r r' v b :
  Poll zero r = Done (r', v, b) ->
  exists nd, get_node r (Z.land (head r) (mask r)) = Some nd /\
    ((b = true /\ step nd = u64 (head r + 1) /\ r' = polled r nd /\ v = value nd) \/
     (b = false /\ step nd <> u64 (head r + 1) /\ r' = r /\ v = zero)).
Proof.
  intros E. destruct (get_node r (Z.land (head r) (mask r))) as [nd|] eqn:G.
  - exists nd. split; [reflexivity|].
    destruct (Z.eq_dec (step nd) (u64 (head r + 1))) as [Hs|Hs].
    + rewrite (Poll_ready r nd G Hs) in E. inversion E; subst. left; auto.
    + rewrite (Poll_not_ready r nd G Hs) in E. inversion E; subst. right; auto.
  - unfold Poll in E. now rewrite G in E.
Qed.

Lemma bounds_offered r v : bounds r -> bounds (offered r v).
Proof.
  intros (Hh & Ht & Hm). unfold bounds, offered; simpl.
  rewrite !length_insert. pose proof (u64_range (tail r + 1)). tauto.
Qed.

Lemma bounds_polled r nd : bounds r -> bounds (polled r nd).
Proof.
  intros (Hh & Ht & Hm). unfold bounds, polled; simpl.
  rewrite !length_insert. pose proof (u64_range (head r + 1)). tauto.
Qed.

Lemma Poll_total r :
  bounds r -> exists r' v b, Poll zero r = Done (r', v, b) /\ bounds r'.
Proof.
  intros Hb. destruct (get_node_bounds r (head r) Hb) as [nd G].
  { destruct Hb as (? & _). lia. }
  destruct (Z.eq_dec (step nd) (u64 (head r + 1))) as [Hs|Hs].
  - exists (polled r nd), (value nd), true. split.
    + now apply Poll_ready.
    + now apply bounds_polled.
  - exists r, zero, false. split; [now apply (Poll_not_ready r nd)|assumption].
Qed.

Lemma Offer_total r v :
  bounds r -> exists r' b, Offer r v = Done (r', b) /\ bounds r'.
Proof.
  intros Hb. destruct (get_node_bounds r (tail r) Hb) as [nd G].
  { destruct Hb as (_ & ? & _). lia. }
  destruct (Z.eq_dec (step nd) (tail r)) as [Hs|Hs].
  - exists (offered r v), true. split.
    + now apply (Offer_free r v nd).
    + now apply bounds_offered.
  - exists r, false. split; [now apply (Offer_busy r v nd)|assumption].
Qed.

End Calls.

(** ** The batched poll against sequential polls *)

Section Batch.

Context {T : Type}.
Variable zero : T.
Implicit Types (r s : nodeBased T) (nd : node T) (v : T).

Lemma set_head_same r : set_head r (head r) = r.
Proof. now destruct r. Qed.

Lemma pollSeq_app a b r :
  pollSeq zero (a + b) r =
  match pollSeq zero a r with
  | Some (vs1, r1) =>
    match pollSeq zero b r1 with
    | Some (vs2, r2) => Some (vs1 ++ vs2, r2)
    | None => None
    end
  | None => None
  end.
Proof.
  revert r. induction a as [|a IH]; intros r; simpl.
  - destruct (pollSeq zero b r) as [[vs2 r2]|]; reflexivity.
  - destruct (Poll zero r) as [[[r1 v] [|]]| |]; try reflexivity.
    rewrite IH. destruct (pollSeq zero a r1) as [[vs1 r2]|]; [|reflexivity].
    destruct (pollSeq zero b r2) as [[vs2 r3]|]; reflexivity.
Qed.

(** A first successful poll means the head slot is ready. *)
Lemma pollSeq_S_ready k r vs r' :
  pollSeq zero (S k) r = Some (vs, r') -> ready_at r (head r).
Proof.
  simpl. destruct (Poll zero r) as [[[r1 v] [|]]| |] eqn:E; try discriminate.
  intros _. apply Poll_cases in E as (nd & G & [(_ & Hs & _)|(? & _)]); [|discriminate].
  now exists nd.
Qed.

Lemma not_ready_Poll r :
  bounds r -> ~ ready_at r (head r) -> Poll zero r = Done (r, zero, false).
Proof.
  intros Hb Hn. destruct (get_node_bounds r (head r) Hb) as [nd G].
  { destruct Hb as (? & _). lia. }
  apply (Poll_not_ready zero r nd G). intros Hs. apply Hn. now exists nd.
Qed.

Lemma pollSeq_bounds k : forall r vs r',
  bounds r -> pollSeq zero k r = Some (vs, r') -> bounds r' /\ length vs = k.
Proof.
  induction k as [|k IH]; intros r vs r' Hb; simpl.
  - intros E. inversion E; subst. now split.
  - destruct (Poll zero r) as [[[r1 v] [|]]| |] eqn:E; try discriminate.
    destruct (pollSeq zero k r1) as [[vs1 r2]|] eqn:E1; try discriminate.
    intros E2. inversion E2; subst.
    apply Poll_cases in E as (nd & G & [(_ & Hs & -> & _)|(? & _)]); [|discriminate].
    destruct (IH _ _ _ (bounds_polled r nd Hb) E1) as [? ?]. split; [assumption|].
    simpl. now f_equal.
Qed.

(** The scan counts the ready slots from the head, up to the limit and
    up to eight, and stops at the first slot that is not ready. *)
Lemma scan_spec r h limit :
  bounds r -> 0 <= limit ->
  forall fuel i, 0 <= i <= 8 -> (9 <= fuel + Z.to_nat i)%nat ->
  exists a, scan fuel r h limit i i = Done a /\ i <= a <= 8 /\
    (a <= limit \/ a = i) /\
    (forall j, i <= j < a -> ready_at r (u64 (h + j))) /\
    (a < limit -> a < 8 -> ~ ready_at r (u64 (h + a))).
Proof.
  intros Hb Hl. induction fuel as [|fuel IH]; intros i Hi Hf.
  - lia.
  - simpl. destruct (i <? limit) eqn:E1; simpl; [destruct (i <? 8) eqn:E2|].
    + apply Z.ltb_lt in E1, E2.
      destruct (get_node_bounds r (u64 (h + i)) Hb) as [nd G].
      { apply u64_range. }
      rewrite G. destruct (step nd =? u64 (u64 (h + i) + 1)) eqn:E3; simpl.
      * apply Z.eqb_eq in E3.
        rewrite (u64_small (i + 1)) by (rewrite modulus_eq; lia).
        destruct (IH (i + 1) ltac:(lia) ltac:(lia)) as (a & Ea & Ha & Hal & Hr & Hn).
        exists a. split; [assumption|]. split; [lia|]. split; [lia|]. split; [|assumption].
        intros j Hj. destruct (Z.eq_dec j i) as [->|Hne].
        -- now exists nd.
        -- apply Hr. lia.
      * apply Z.eqb_neq in E3. exists i. split; [reflexivity|].
        split; [lia|]. split; [lia|]. split; [intros; lia|].
        intros _ _ (nd' & G' & Hs'). rewrite G in G'. inversion G'; subst. contradiction.
    + apply Z.ltb_ge in E2. exists i. split; [reflexivity|].
      split; [lia|]. split; [lia|]. split; intros; lia.
    + apply Z.ltb_ge in E1. exists i. split; [reflexivity|].
      split; [lia|]. split; [lia|]. split; intros; lia.
Qed.

(** A poll leaves ready whatever other slot of a run of at most eight
    positions was ready. *)
Lemma ready_at_polled s nd h i j :
  get_node s (Z.land (u64 (h + j)) (mask s)) = Some nd ->
  step nd = u64 (u64 (h + j) + 1) ->
  head s = u64 (h + j) ->
  -8 <= i - j <= 8 -> i <> j ->
  ready_at s (u64 (h + i)) -> ready_at (polled s nd) (u64 (h + i)).
Proof.
  intros G Hs Hh Hij Hne (ndi & Gi & Hsi). exists ndi. split; [|assumption].
  unfold polled, get_node; simpl. rewrite list_lookup_insert_ne; [exact Gi|].
  intros Heq. unfold get_node in G, Gi. rewrite Hh in Heq. rewrite Heq, Gi in G.
  inversion G; subst. rewrite Hs in Hsi. rewrite !u64_add_l in Hsi.
  apply Hne. cut (i + 1 = j + 1); [lia|].
  apply (u64_offset_inj h); [|rewrite modulus_eq; lia].
  rewrite !Z.add_assoc. congruence.
Qed.

(** The extraction of a claimed run of ready slots does what as many
    sequential polls do. *)
Lemma extract_pollSeq h X : forall m s j values,
  bounds s -> head s = u64 (h + j) -> 0 <= j -> j + Z.of_nat m <= 8 ->
  (forall i, j <= i < j + Z.of_nat m -> ready_at s (u64 (h + i))) ->
  exists vs s', pollSeq zero m s = Some (vs, s') /\
    extract m (set_head s X) h j values = Done (set_head s' X, values ++ vs) /\
    head s' = u64 (h + j + Z.of_nat m) /\ bounds s' /\ length vs = m.
Proof.
  induction m as [|m IH]; intros s j values Hb Hh Hj Hm Hr.
  - exists [], s. simpl. rewrite app_nil_r, Z.add_0_r. auto.
  - destruct (Hr j ltac:(lia)) as (nd & G & Hs).
    assert (EP : Poll zero s = Done (polled s nd, value nd, true)).
    { apply Poll_ready; rewrite Hh; assumption. }
    destruct (IH (polled s nd) (j + 1) (values ++ [value nd])) as (vs & s' & E1 & E2 & E3 & E4 & E5).
    + now apply bounds_polled.
    + simpl. rewrite Hh, u64_add_l. f_equal; lia.
    + lia.
    + lia.
    + intros i Hi. apply (ready_at_polled s nd h i j); try assumption; try lia.
      apply Hr. lia.
    + exists (value nd :: vs), s'. split; [|split; [|split; [|split]]].
      * simpl. rewrite EP, E1. reflexivity.
      * simpl. unfold get_node in G |- *. simpl. rewrite G.
        rewrite (u64_small (j + 1)) by (rewrite modulus_eq; lia).
        replace (set_node (set_head s X) _ _) with (set_head (polled s nd) X).
        -- rewrite E2. now rewrite <- app_assoc.
        -- unfold polled, set_node, set_head; simpl. now rewrite Hh.
      * rewrite E3. f_equal; lia.
      * assumption.
      * simpl. now f_equal.
Qed.

(** The loop of [PollNBatched], entered with [count] values collected,
    returns what [k] sequential polls return, when those [k] polls fill
    the request or the poll after them fails. *)
Lemma PollNBatched_loop_spec n :
  0 <= n < modulus ->
  forall fuel r values count k vs r',
  bounds r -> 0 <= count -> count + Z.of_nat k <= n ->
  (Z.to_nat (n - count) < fuel)%nat ->
  pollSeq zero k r = Some (vs, r') ->
  (count + Z.of_nat k = n \/ Poll zero r' = Done (r', zero, false)) ->
  PollNBatched_loop fuel r n values count = Done (r', values ++ vs, count + Z.of_nat k).
Proof.
  intros Hn. induction fuel as [|fuel IH]; intros r values count k vs r' Hb Hc Hk Hf Hp Hend.
  - lia.
  - cbn [PollNBatched_loop]. destruct (count <? n) eqn:Ecn.
    2:{ apply Z.ltb_ge in Ecn. assert (k = 0%nat) as -> by lia.
        simpl in Hp. inversion Hp; subst. rewrite app_nil_r, Z.add_0_r. reflexivity. }
    apply Z.ltb_lt in Ecn.
    rewrite (u64_small (n - count)) by lia.
    destruct (scan_spec r (head r) (n - count) Hb ltac:(lia) scan_fuel 0 ltac:(lia))
      as (a & Ea & Ha & Hal & Hr & Hnr).
    { unfold scan_fuel. simpl. lia. }
    rewrite Ea. destruct (a =? 0) eqn:Ea0.
    + apply Z.eqb_eq in Ea0. subst a.
      assert (Hn0 : ~ ready_at r (head r)).
      { rewrite <- (u64_small (head r)), <- (Z.add_0_r (head r)) by apply Hb.
        apply Hnr; lia. }
      destruct k as [|k].
      * simpl in Hp. inversion Hp; subst. rewrite app_nil_r, Z.add_0_r. reflexivity.
      * exfalso. apply Hn0. eapply pollSeq_S_ready; eassumption.
    + apply Z.eqb_neq in Ea0.
      unfold CompareAndSwapUint64. rewrite Z.eqb_refl. cbn [negb].
      destruct (extract_pollSeq (head r) (u64 (head r + a)) (Z.to_nat a) r 0 values)
        as (vsa & sa & E1 & E2 & E3 & E4 & E5); try assumption; try lia.
      { rewrite Z.add_0_r. symmetry. apply u64_small, Hb. }
      { intros i Hi. apply Hr. lia. }
      rewrite E2.
      assert (Hsa : set_head sa (u64 (head r + a)) = sa).
      { rewrite <- (set_head_same sa) at 2. f_equal. rewrite E3. f_equal. lia. }
      rewrite Hsa.
      assert (Hak : (Z.to_nat a <= k)%nat).
      { destruct (Nat.le_gt_cases (Z.to_nat a) k) as [|Hlt]; [assumption|exfalso].
        destruct Hend as [Hfull|Hfail]; [lia|].
        replace (Z.to_nat a) with (k + S (Z.to_nat a - S k))%nat in E1 by lia.
        rewrite pollSeq_app, Hp in E1. simpl in E1. rewrite Hfail in E1. discriminate. }
      replace k with (Z.to_nat a + (k - Z.to_nat a))%nat in Hp by lia.
      rewrite pollSeq_app, E1 in Hp.
      destruct (pollSeq zero (k - Z.to_nat a) sa) as [[vs2 r2]|] eqn:E6; [|discriminate].
      inversion Hp; subst.
      rewrite (u64_small (count + a)) by lia.
      rewrite (IH sa (values ++ vsa) (count + a) (k - Z.to_nat a)%nat vs2 r');
        try assumption; try lia.
      * rewrite <- app_assoc. do 2 f_equal. lia.
      * destruct Hend as [Hfull|Hfail]; [left; lia|now right].
Qed.

(** Sequential polls on a well-formed buffer succeed some [k] times, up
    to any given number of times, and then fail. *)
Lemma pollSeq_total m : forall r,
  bounds r ->
  exists k vs r', (k <= m)%nat /\ pollSeq zero k r = Some (vs, r') /\
    (k = m \/ Poll zero r' = Done (r', zero, false)).
Proof.
  induction m as [|m IH]; intros r Hb.
  - exists 0%nat, [], r. simpl. auto.
  - destruct (Poll_total zero r Hb) as (r1 & v & [|] & E & Hb1).
    + destruct (IH r1 Hb1) as (k & vs & r' & Hk & Ep & Hend).
      exists (S k), (v :: vs), r'. split; [lia|]. split.
      * simpl. now rewrite E, Ep.
      * destruct Hend; [left; lia|now right].
    + exists 0%nat, [], r. split; [lia|]. split; [reflexivity|]. right.
      apply Poll_cases in E as (nd & G & [(? & _)|(_ & Hs & _)]); [discriminate|].
      now apply (Poll_not_ready zero r nd).
Qed.

End Batch.

(** ** The slot protocol for a capacity that is a power of two *)

Section Protocol.

Context {T : Type}.
Variable zero : T.
Variable k : Z.
Hypothesis k_range : 1 <= k <= 63.
Let C : Z := 2 ^ k.
Implicit Types (r : nodeBased T) (nd : node T) (v : T) (q : list T).

Lemma C_range : 2 <= C <= 2 ^ 63.
Proof.
  unfold C. split.
  - change 2 with (2 ^ 1) at 1. apply Z.pow_le_mono_r; lia.
  - apply Z.pow_le_mono_r; lia.
Qed.

Lemma C_lt_modulus : C < modulus.
Proof. pose proof C_range. rewrite modulus_eq. change (2 ^ 63) with 9223372036854775808 in *. lia. Qed.

Lemma C_divides : (C | modulus).
Proof.
  exists (2 ^ (64 - k)). unfold C, modulus.
  rewrite <- Z.pow_add_r by lia. f_equal. lia.
Qed.

Lemma land_mask x : Z.land x (C - 1) = x mod C.
Proof.
  unfold C. rewrite <- Z.land_ones by lia. f_equal.
  rewrite Z.ones_equiv. lia.
Qed.

Lemma u64_mod_C x : u64 x mod C = x mod C.
Proof. unfold u64. apply Z.mod_mod_divide, C_divides. Qed.

Lemma mod_C_range x : 0 <= x mod C < C.
Proof. apply Z.mod_pos_bound. pose proof C_range. lia. Qed.

(** The positions of a window of [C] consecutive positions fall in
    pairwise distinct slots. *)
Lemma window_inj H p p' :
  H <= p < H + C -> H <= p' < H + C -> p mod C = p' mod C -> p = p'.
Proof.
  intros Hp Hp' E. pose proof C_range as HC.
  pose proof (Z.div_mod p C ltac:(lia)) as E1.
  pose proof (Z.div_mod p' C ltac:(lia)) as E2.
  rewrite E in E1.
  assert (Hd : p - p' = C * (p / C - p' / C)) by lia.
  assert (p / C - p' / C = 0) by nia. lia.
Qed.

Lemma slot_index_ne H p p' :
  H <= p < H + C -> H <= p' < H + C -> p <> p' ->
  Z.to_nat (p mod C) <> Z.to_nat (p' mod C).
Proof.
  intros Hp Hp' Hne E. apply Hne, (window_inj H); try assumption.
  pose proof (mod_C_range p). pose proof (mod_C_range p'). lia.
Qed.

Lemma u64_succ_ne a d : 0 < d < modulus -> u64 a <> u64 (a + d).
Proof.
  intros Hd E. replace a with (a + 0) in E at 1 by lia.
  apply u64_offset_inj in E; lia.
Qed.

Lemma Inv_bounds H q r : Inv C H q r -> bounds r.
Proof.
  intros (Hm & Hl & HH & Hh & Ht & Hq & Hs). unfold bounds.
  rewrite Hh, Ht, Hm, Hl. pose proof C_range.
  pose proof (u64_range H). pose proof (u64_range (H + Z.of_nat (length q))). lia.
Qed.

Lemma Inv_new : Inv C 0 [] (newNodeBased zero C).
Proof.
  pose proof C_range as HC. pose proof C_lt_modulus as HCm.
  unfold Inv, newNodeBased; simpl. repeat split.
  - apply u64_small. lia.
  - rewrite length_fmap, length_seq. lia.
  - reflexivity.
  - lia.
  - intros p Hp. exists (mkNode p zero).
    rewrite Z.mod_small by lia. unfold get_node; simpl. split; [|split].
    + rewrite list_lookup_fmap.
      rewrite (proj2 (lookup_seq 0 (Z.to_nat C) (Z.to_nat p) (Z.to_nat p))) by (split; lia).
      simpl. do 2 f_equal. lia.
    + simpl. lia.
    + intros _. simpl. symmetry. apply u64_small. lia.
Qed.

Lemma Inv_Offer_free H q r v :
  Inv C H q r -> Z.of_nat (length q) < C ->
  Offer r v = Done (offered r v, true) /\ Inv C H (q ++ [v]) (offered r v).
Proof.
  intros (Hm & Hl & HH & Hh & Ht & Hq & Hs) Hlt.
  set (L := Z.of_nat (length q)) in *.
  assert (Hidx : Z.land (tail r) (mask r) = (H + L) mod C).
  { rewrite Hm, Ht, land_mask. apply u64_mod_C. }
  destruct (Hs (H + L) ltac:(lia)) as (nd & G & _ & Hfree).
  split.
  - apply (Offer_free r v nd); [now rewrite Hidx|]. rewrite Ht. apply Hfree. lia.
  - unfold Inv, offered. rewrite Hidx. simpl. rewrite !length_insert, length_app. simpl.
    repeat split; try assumption.
    + rewrite Ht, u64_add_l. f_equal. lia.
    + lia.
    + intros p Hp. destruct (Z.eq_dec p (H + L)) as [->|Hne].
      * exists (mkNode (u64 (tail r + 1)) v). unfold get_node; simpl.
        split; [|split].
        -- apply list_lookup_insert_eq. rewrite length_insert.
           pose proof (mod_C_range (H + L)). lia.
        -- intros _. simpl. split.
           ++ rewrite Ht, u64_add_l. reflexivity.
           ++ apply list_lookup_middle. unfold L. lia.
        -- rewrite length_app. simpl. lia.
      * destruct (Hs p Hp) as (ndp & Gp & Hpub & Hfr). exists ndp.
        unfold get_node; simpl. split; [|split].
        -- rewrite !list_lookup_insert_ne; [exact Gp| |];
             apply (slot_index_ne H); auto; lia.
        -- rewrite length_app. simpl. intros Hlt'.
           destruct (Hpub ltac:(unfold L in *; lia)) as [E1 E2].
           split; [assumption|]. now apply lookup_app_l_Some.
        -- rewrite length_app. simpl. intros Hge. apply Hfr. unfold L in *. lia.
Qed.

Lemma Inv_Offer_full H q r v :
  Inv C H q r -> Z.of_nat (length q) = C -> Offer r v = Done (r, false).
Proof.
  intros (Hm & Hl & HH & Hh & Ht & Hq & Hs) Hfull. pose proof C_range as HC.
  destruct (Hs H ltac:(lia)) as (nd & G & Hpub & _).
  apply (Offer_busy r v nd).
  - rewrite Hm, Ht, land_mask, u64_mod_C, Hfull.
    rewrite <- (Z.mul_1_l C) at 1. now rewrite Z.mod_add by lia.
  - destruct (Hpub ltac:(lia)) as [E _]. rewrite E, Ht, Hfull.
    replace (H + C) with (H + 1 + (C - 1)) by lia.
    apply u64_succ_ne. pose proof C_lt_modulus. lia.
Qed.

Lemma Inv_Poll_ready H q r v :
  Inv C H (v :: q) r ->
  exists r', Poll zero r = Done (r', v, true) /\ Inv C (H + 1) q r'.
Proof.
  intros (Hm & Hl & HH & Hh & Ht & Hq & Hs). pose proof C_range as HC.
  simpl length in *.
  assert (Hidx : Z.land (head r) (mask r) = H mod C).
  { rewrite Hm, Hh, land_mask. apply u64_mod_C. }
  destruct (Hs H ltac:(lia)) as (nd & G & Hpub & _).
  destruct (Hpub ltac:(simpl length; lia)) as [Est Ev].
  replace (H - H) with 0 in Ev by lia. simpl in Ev. injection Ev as ->.
  assert (Hstep : step nd = u64 (head r + 1)).
  { rewrite Est, Hh, u64_add_l. reflexivity. }
  exists (polled r nd). split.
  - apply Poll_ready; [now rewrite Hidx|assumption].
  - unfold Inv, polled. rewrite Hidx. simpl. rewrite !length_insert.
    repeat split; try assumption; try lia.
    + rewrite Ht. f_equal. lia.
    + intros p Hp. destruct (Z.eq_dec p (H + C)) as [->|Hne].
      * exists (mkNode (u64 (step nd + mask r)) (value nd)).
        unfold get_node; simpl. split; [|split].
        -- rewrite <- (Z.mul_1_l C) at 1. rewrite Z.mod_add by lia.
           apply list_lookup_insert_eq. pose proof (mod_C_range H). lia.
        -- intros Hlt. lia.
        -- intros _. simpl. rewrite Est, Hm, u64_add_l. f_equal. lia.
      * destruct (Hs p ltac:(lia)) as (ndp & Gp & Hpubp & Hfr). exists ndp.
        unfold get_node; simpl. split; [|split].
        -- rewrite list_lookup_insert_ne; [exact Gp|].
           apply (slot_index_ne H); lia.
        -- intros Hlt. destruct (Hpubp ltac:(simpl length; lia)) as [E1 E2].
           split; [assumption|].
           replace (Z.to_nat (p - H)) with (S (Z.to_nat (p - (H + 1)))) in E2 by lia.
           exact E2.
        -- intros Hge. apply Hfr. simpl length. lia.
Qed.

Lemma Inv_Poll_empty H r :
  Inv C H [] r -> Poll zero r = Done (r, zero, false).
Proof.
  intros (Hm & Hl & HH & Hh & Ht & Hq & Hs). pose proof C_range as HC.
  simpl length in *.
  destruct (Hs H ltac:(lia)) as (nd & G & _ & Hfr).
  apply (Poll_not_ready zero r nd).
  - now rewrite Hm, Hh, land_mask, u64_mod_C.
  - rewrite (Hfr ltac:(simpl length; lia)), Hh, u64_add_l.
    apply u64_succ_ne. rewrite modulus_eq. lia.
Qed.

Lemma Inv_pollSeq j : forall H q r,
  Inv C H q r -> (j <= length q)%nat ->
  exists r', pollSeq zero j r = Some (take j q, r') /\
    Inv C (H + Z.of_nat j) (drop j q) r'.
Proof.
  induction j as [|j IH]; intros H q r HI Hj.
  - exists r. simpl. rewrite take_0, drop_0, Z.add_0_r. auto.
  - destruct q as [|v q]; [simpl in Hj; lia|].
    destruct (Inv_Poll_ready H q r v HI) as (r1 & EP & HI1).
    destruct (IH (H + 1) q r1 HI1 ltac:(simpl in Hj; lia)) as (r' & ES & HI').
    exists r'. simpl. rewrite EP, ES. split; [reflexivity|].
    replace (H + Z.of_nat (S j)) with (H + 1 + Z.of_nat j) by lia. exact HI'.
Qed.

Lemma Inv_offerSeq vs : forall H q r,
  Inv C H q r -> Z.of_nat (length q) + Z.of_nat (length vs) <= C ->
  exists r', offerSeq vs r = Some r' /\ Inv C H (q ++ vs) r'.
Proof.
  induction vs as [|v vs IH]; intros H q r HI Hlen.
  - exists r. simpl. rewrite app_nil_r. auto.
  - simpl length in Hlen.
    destruct (Inv_Offer_free H q r v HI ltac:(lia)) as [EO HI1].
    destruct (IH H (q ++ [v]) (offered r v) HI1) as (r' & ES & HI').
    { rewrite length_app. simpl. lia. }
    exists r'. simpl. rewrite EO. split; [assumption|].
    now rewrite <- app_assoc in HI'.
Qed.

(** On a buffer that follows the protocol, [PollNBatched] hands out the
    oldest values of the queue, as many as asked for or as there are. *)
Lemma Inv_PollNBatched H q r n :
  Inv C H q r -> 0 <= n < modulus ->
  let j := Nat.min (Z.to_nat n) (length q) in
  exists r', PollNBatched (S (Z.to_nat n)) r n = Done (r', take j q, Z.of_nat j) /\
    Inv C (H + Z.of_nat j) (drop j q) r'.
Proof.
  intros HI Hn j.
  destruct (Inv_pollSeq j H q r HI ltac:(lia)) as (r' & ES & HI').
  exists r'. split; [|assumption].
  unfold PollNBatched. destruct (n =? 0) eqn:En.
  - apply Z.eqb_eq in En. subst n. simpl in j. subst j.
    simpl in ES. inversion ES; subst. now rewrite take_0.
  - apply Z.eqb_neq in En.
    assert (Hend : 0 + Z.of_nat j = n \/ Poll zero r' = Done (r', zero, false)).
    { destruct (Nat.le_gt_cases (Z.to_nat n) (length q)) as [Hle|Hgt].
      - left. lia.
      - right. apply (Inv_Poll_empty (H + Z.of_nat j)).
        replace (drop j q) with (@nil T) in HI'; [assumption|].
        symmetry. apply drop_ge. lia. }
    rewrite (PollNBatched_loop_spec zero n Hn (S (Z.to_nat n)) r [] 0 j (take j q) r'
               (Inv_bounds H q r HI) ltac:(lia) ltac:(lia) ltac:(lia) ES Hend).
    reflexivity.
Qed.

Lemma Inv_perform H q r c :
  Inv C H q r -> call_ok c ->
  exists r' a H' q', perform zero r c = Done (r', a) /\ Inv C H' q' r'.
Proof.
  intros HI Hc. destruct c as [v| |n]; simpl.
  - destruct (Z_lt_le_dec (Z.of_nat (length q)) C) as [Hlt|Hge].
    + destruct (Inv_Offer_free H q r v HI Hlt) as [E HI'].
      rewrite E. eauto 10.
    + rewrite (Inv_Offer_full H q r v HI).
      * eauto 10.
      * destruct HI as (_ & _ & _ & _ & _ & ? & _). lia.
  - destruct q as [|v q].
    + rewrite (Inv_Poll_empty H r HI). eauto 10.
    + destruct (Inv_Poll_ready H q r v HI) as (r' & E & HI').
      rewrite E. eauto 10.
  - destruct (Inv_PollNBatched H q r n HI Hc) as (r' & E & HI').
    rewrite E. eauto 10.
Qed.

Lemma Inv_run cs : forall H q r,
  Inv C H q r -> Forall call_ok cs ->
  exists r' answers H' q', run zero cs r = Done (r', answers) /\ Inv C H' q' r'.
Proof.
  induction cs as [|c cs IH]; intros H q r HI Hok.
  - exists r, [], H, q. simpl. auto.
  - inversion Hok as [|? ? Hc Hcs]; subst.
    destruct (Inv_perform H q r c HI Hc) as (r1 & a & H1 & q1 & E1 & HI1).
    destruct (IH H1 q1 r1 HI1 Hcs) as (r' & answers & H' & q' & E & HI').
    exists r', (a :: answers), H', q'. simpl. rewrite E1, E. auto.
Qed.

(** The unsigned distance from head to tail is the length of the
    queue. *)
Lemma Inv_distance H q r :
  Inv C H q r -> distance (tail r) (head r) = Z.of_nat (length q).
Proof.
  intros (Hm & Hl & HH & Hh & Ht & Hq & Hs). unfold distance.
  rewrite Hh, Ht. unfold u64. rewrite <- Zminus_mod.
  replace (H + Z.of_nat (length q) - H) with (Z.of_nat (length q)) by lia.
  apply Z.mod_small. pose proof C_lt_modulus. lia.
Qed.

End Protocol.

(** ** Calls on a well-formed buffer *)

Section Shape.

Context {T : Type}.
Variable zero : T.
Implicit Types (r : nodeBased T) (nd : node T) (v : T).

(** [PollNBatched] with fuel for one round more than the items asked
    for returns what the successful sequential polls return, which
    number the requested [n] or are followed by a failing poll. *)
Lemma PollNBatched_drains r n fuel :
  bounds r -> 0 <= n < modulus -> (Z.to_nat n < fuel)%nat ->
  exists j vs r', (j <= Z.to_nat n)%nat /\ pollSeq zero j r = Some (vs, r') /\
    (j = Z.to_nat n \/ Poll zero r' = Done (r', zero, false)) /\
    PollNBatched fuel r n = Done (r', vs, Z.of_nat j).
Proof.
  intros Hb Hn Hf.
  destruct (pollSeq_total zero (Z.to_nat n) r Hb) as (j & vs & r' & Hj & ES & Hend).
  exists j, vs, r'. repeat split; try assumption.
  unfold PollNBatched. destruct (n =? 0) eqn:En.
  - apply Z.eqb_eq in En. subst n. assert (j = 0%nat) as -> by (simpl in Hj; lia).
    simpl in ES. inversion ES; subst. reflexivity.
  - assert (Hend' : 0 + Z.of_nat j = n \/ Poll zero r' = Done (r', zero, false)).
    { destruct Hend; [left; lia|now right]. }
    rewrite (PollNBatched_loop_spec zero n Hn fuel r [] 0 j vs r'
               Hb ltac:(lia) ltac:(lia) ltac:(lia) ES Hend').
    reflexivity.
Qed.

Lemma pollSeq_shape j : forall r vs r',
  pollSeq zero j r = Some (vs, r') ->
  mask r' = mask r /\ length (element r') = length (element r) /\ tail r' = tail r.
Proof.
  induction j as [|j IH]; intros r vs r'; simpl.
  - intros E. inversion E; subst. auto.
  - destruct (Poll zero r) as [[[r1 v] [|]]| |] eqn:E; try discriminate.
    destruct (pollSeq zero j r1) as [[vs1 r2]|] eqn:E1; try discriminate.
    intros E2. inversion E2; subst.
    apply Poll_cases in E as (nd & G & [(_ & Hs & -> & _)|(? & _)]); [|discriminate].
    destruct (IH _ _ _ E1) as (-> & -> & ->). unfold polled; simpl.
    now rewrite length_insert.
Qed.

Lemma bounds_perform r c :
  bounds r -> call_ok c ->
  exists r' a, perform zero r c = Done (r', a) /\ bounds r' /\
    mask r' = mask r /\ length (element r') = length (element r).
Proof.
  intros Hb Hc. destruct c as [v| |n]; simpl.
  - destruct (Offer_total r v Hb) as (r' & b & E & Hb'). rewrite E.
    exists r', (OfferResult b). split; [reflexivity|]. split; [assumption|].
    apply Offer_cases in E as (nd & _ & [(_ & _ & ->)|(_ & _ & ->)]); [|auto].
    unfold offered; simpl. now rewrite !length_insert.
  - destruct (Poll_total zero r Hb) as (r' & v & b & E & Hb'). rewrite E.
    exists r', (PollResult v b). split; [reflexivity|]. split; [assumption|].
    apply Poll_cases in E as (nd & _ & [(_ & _ & -> & _)|(_ & _ & -> & _)]); [|auto].
    unfold polled; simpl. now rewrite !length_insert.
  - destruct (PollNBatched_drains r n (S (Z.to_nat n)) Hb Hc ltac:(lia))
      as (j & vs & r' & Hj & ES & _ & E).
    rewrite E. exists r', (BatchResult vs (Z.of_nat j)).
    destruct (pollSeq_bounds zero j r vs r' Hb ES) as [Hb' _].
    destruct (pollSeq_shape j r vs r' ES) as (Hm & Hl & _). auto.
Qed.

Lemma bounds_run cs : forall r,
  bounds r -> Forall call_ok cs ->
  exists r' answers, run zero cs r = Done (r', answers) /\ bounds r' /\
    mask r' = mask r /\ length (element r') = length (element r).
Proof.
  induction cs as [|c cs IH]; intros r Hb Hok.
  - exists r, []. simpl. auto.
  - inversion Hok as [|? ? Hc Hcs]; subst.
    destruct (bounds_perform r c Hb Hc) as (r1 & a & E1 & Hb1 & Hm1 & Hl1).
    destruct (IH r1 Hb1 Hcs) as (r' & answers & E & Hb' & Hm & Hl).
    exists r', (a :: answers). simpl. rewrite E1, E.
    split; [reflexivity|]. split; [assumption|]. split; congruence.
Qed.

Lemma bounds_new C : 1 <= C < modulus -> bounds (newNodeBased zero C).
Proof.
  intros HC. unfold bounds, newNodeBased; simpl.
  rewrite length_fmap, length_seq, u64_small by lia. lia.
Qed.


(** C7: Whenever Offer returns false, and whenever Poll returns with
    success false, the buffer is unchanged: head, tail and every slot's
    stamp and value are what they were before the call. *)
Theorem failure_leaves_buffer_unchanged r v r' r'' x :
  (Offer r v = Done (r', false) -> r' = r) /\
  (Poll zero r = Done (r'', x, false) -> r'' = r /\ x = zero).
Proof.
  split; intros E.
  - apply Offer_cases in E as (nd & _ & [(? & _)|(_ & _ & ->)]); [discriminate|reflexivity].
  - apply Poll_cases in E as (nd & _ & [(? & _)|(_ & _ & -> & ->)]); [discriminate|auto].
Qed.

(** C10: For every buffer constructed with a capacity of at least 1,
    a power of two or not, every index [position & mask] lies below the
    capacity, and no sequence of Offer, Poll and PollNBatched calls
    panics on a slot access: every call returns, and the mask and the
    length of the slot array stay what the constructor made them. *)
Theorem slot_access_in_bounds C cs :
  1 <= C < modulus -> Forall call_ok cs ->
  (forall pos, 0 <= pos -> 0 <= Z.land pos (C - 1) < C) /\
  exists r answers, run zero cs (newNodeBased zero C) = Done (r, answers) /\
    mask r = C - 1 /\ Z.of_nat (length (element r)) = C.
Proof.
  intros HC Hok. split.
  - intros pos Hpos. pose proof (land_range pos (C - 1) Hpos ltac:(lia)). lia.
  - destruct (bounds_run cs (newNodeBased zero C) (bounds_new C HC) Hok)
      as (r & answers & E & _ & Hm & Hl).
    exists r, answers. split; [assumption|]. rewrite Hm, Hl. simpl.
    rewrite length_fmap, length_seq, u64_small by lia. lia.
Qed.

End Shape.

(** ** The ring buffer as a bounded queue *)

Section Queue.

Context {T : Type}.
Variable zero : T.
Implicit Types (r : nodeBased T) (nd : node T) (v : T).

(** C1: Starting from a freshly constructed buffer whose capacity C is
    a power of two with 2 <= C, every sequence of Offer, Poll and
    PollNBatched calls keeps head <= tail and tail - head <= C on the
    unwrapped counters: head and tail are the wrapped images of two
    counts H <= Tl <= H + C, and the unsigned 64-bit distance
    tail - head is at most C. *)
Theorem counters_within_capacity k cs :
  1 <= k <= 63 -> Forall call_ok cs ->
  exists r answers, run zero cs (newNodeBased zero (2 ^ k)) = Done (r, answers) /\
    distance (tail r) (head r) <= 2 ^ k /\
    exists H Tl, H <= Tl <= H + 2 ^ k /\ head r = u64 H /\ tail r = u64 Tl /\
      distance (tail r) (head r) = Tl - H.
Proof.
  intros Hk Hok.
  destruct (Inv_run zero k Hk cs 0 [] _ (Inv_new zero k Hk) Hok)
    as (r & answers & H & q & E & HI).
  exists r, answers. split; [assumption|].
  pose proof (Inv_distance k Hk H q r HI) as Hd.
  destruct HI as (_ & _ & HH & Hh & Ht & Hq & _).
  split; [lia|]. exists H, (H + Z.of_nat (length q)).
  repeat split; try assumption; lia.
Qed.

(** C2: After a successful Poll that claimed head position h, the
    polled slot's stamp is stored to h + 1 + mask, which for a capacity
    that is a power of two is h + capacity, the stamp the producer at
    logical position h + capacity expects: an Offer whose tail equals
    h + capacity and that finds the slot as the Poll left it
    succeeds. *)
Theorem Poll_rearms_slot r r' v :
  Poll zero r = Done (r', v, true) ->
  exists nd, get_node r' (Z.land (head r) (mask r)) = Some nd /\
    step nd = u64 (head r + 1 + mask r) /\
    forall k, 0 <= k <= 63 -> mask r = 2 ^ k - 1 ->
      step nd = u64 (head r + 2 ^ k) /\
      forall r2 v2, mask r2 = mask r -> tail r2 = u64 (head r + 2 ^ k) ->
        get_node r2 (Z.land (head r) (mask r)) = Some nd ->
        Offer r2 v2 = Done (offered r2 v2, true).
Proof.
  intros E.
  apply Poll_cases in E as (nd0 & G & [(_ & Hs & -> & ->)|(? & _)]); [|discriminate].
  exists (mkNode (u64 (step nd0 + mask r)) (value nd0)). split; [|split].
  - unfold polled, get_node; simpl. apply list_lookup_insert_eq.
    apply lookup_lt_Some with nd0. exact G.
  - simpl. rewrite Hs, u64_add_l. reflexivity.
  - intros k Hk Hm. simpl. split.
    + rewrite Hs, u64_add_l, Hm. f_equal. lia.
    + intros r2 v2 Hm2 Ht2 G2.
      apply (Offer_free r2 v2 (mkNode (u64 (step nd0 + mask r)) (value nd0))).
      * rewrite <- G2. f_equal. rewrite Hm2, Ht2, Hm.
        assert (Hones : 2 ^ k - 1 = Z.ones k) by (rewrite Z.ones_equiv; lia).
        rewrite Hones, !Z.land_ones by lia. unfold u64.
        rewrite Z.mod_mod_divide.
        -- rewrite <- (Z.mul_1_l (2 ^ k)) at 1. apply Z.mod_add.
           apply Z.pow_nonzero; lia.
        -- exists (2 ^ (64 - k)). unfold modulus.
           rewrite <- Z.pow_add_r by lia. f_equal. lia.
      * simpl. rewrite Ht2, Hs, u64_add_l, Hm. f_equal. lia.
Qed.

(** C5: For every capacity C that is a power of two and at least 2,
    and every sequence of C values, offering exactly the C values into
    a fresh buffer succeeds every time, polling exactly C times then
    returns those C values in the order they were offered, and
    afterwards the buffer is logically empty: a further Poll returns
    false and a further Offer succeeds. *)
Theorem round_trip k (vs : list T) :
  1 <= k <= 63 -> Z.of_nat (length vs) = 2 ^ k ->
  exists r1 r2, offerSeq vs (newNodeBased zero (2 ^ k)) = Some r1 /\
    pollSeq zero (length vs) r1 = Some (vs, r2) /\
    Poll zero r2 = Done (r2, zero, false) /\
    forall v, exists r3, Offer r2 v = Done (r3, true).
Proof.
  intros Hk Hlen.
  destruct (Inv_offerSeq k Hk vs 0 [] _ (Inv_new zero k Hk)) as (r1 & E1 & HI1).
  { simpl. lia. }
  simpl in HI1.
  destruct (Inv_pollSeq zero k Hk (length vs) 0 vs r1 HI1 ltac:(lia)) as (r2 & E2 & HI2).
  rewrite firstn_all in E2. rewrite drop_all in HI2.
  exists r1, r2. repeat split; try assumption.
  - apply (Inv_Poll_empty zero k Hk _ r2 HI2).
  - intros v. exists (offered r2 v).
    apply (Inv_Offer_free k Hk _ [] r2 v HI2). simpl. pose proof (C_range k Hk). lia.
Qed.



End Queue.

(** ** The single-producer wrapper *)

Section Producer.

Context {T S : Type}.
Variable valueSupplier : S -> (T * bool) * S.
Implicit Types (r : nodeBased T) (v : T) (s : S).

(** The spin on [Offer] ends when an [Offer] has placed the value.  A
    failed [Offer] leaves the buffer as it is, so with no other thread
    at work the attempt that places the value is the first one. *)
Lemma spinOffer_done fuel r v r' :
  spinOffer fuel r v = Done r' <-> (fuel <> 0%nat /\ Offer r v = Done (r', true)).
Proof.
  induction fuel as [|fuel IH]; simpl.
  - split; [discriminate|intros [? _]; congruence].
  - destruct (Offer r v) as [[r1 [|]]| |] eqn:E.
    + split; [intros H; inversion H; subst; auto|intros [_ H]; inversion H; reflexivity].
    + assert (r1 = r) as ->.
      { apply Offer_cases in E as (nd & _ & [(? & _)|(_ & _ & ->)]); [discriminate|reflexivity]. }
      rewrite IH. split; intros [_ ?]; discriminate.
    + split; [discriminate|intros [_ ?]; discriminate].
    + split; [discriminate|intros [_ ?]; discriminate].
Qed.


Lemma SingleProducerOffer_complete (vs : list T) : forall vlast fuel s r r' s',
  (length vs < fuel)%nat ->
  supplier_run valueSupplier (Datatypes.S (length vs)) s =
    (map (fun v => (v, false)) vs ++ [(vlast, true)], s') ->
  offerSeq vs r = Some r' ->
  SingleProducerOffer fuel valueSupplier s r = Done (r', s').
Proof.
  induction vs as [|v vs IH]; intros vlast fuel s r r' s' Hf Er EA;
    (destruct fuel as [|fuel]; [simpl in Hf; lia|]).
  - simpl in *. destruct (valueSupplier s) as [[v0 f0] s1].
    inversion Er; subst. inversion EA; subst. reflexivity.
  - cbn [length supplier_run] in Er. simpl in EA |- *.
    destruct (valueSupplier s) as [[v0 f0] s1].
    destruct (valueSupplier s1) as [res2 s2] eqn:Es1.
    destruct (supplier_run valueSupplier (length vs) s2) as [rest s3] eqn:Er2.
    inversion Er; subst.
    destruct (Offer r v) as [[r1 [|]]| |] eqn:EO; try discriminate.
    assert (Esp : spinOffer fuel r v = Done r1).
    { apply spinOffer_done. split; [simpl in Hf; lia|assumption]. }
    rewrite Esp. apply (IH vlast); [simpl in Hf; lia| |assumption].
    cbn [length supplier_run]. rewrite Es1, Er2. congruence.
Qed.


End Producer.

(** ** Concrete buffers *)

(** C4: On a freshly constructed buffer of capacity 4 (mask 3), the
    trace Offer(10), Offer(20), Offer(30), Offer(40) returns true four
    times; Offer(50) returns false; Poll() returns (10, true);
    Offer(50) then returns true; the next four Poll() calls return
    (20, true), (30, true), (40, true), (50, true); and a final Poll()
    returns (zero, false). *)
Theorem capacity_four_trace :
  mask (newNodeBased 0 4) = 3 /\
  exists r,
    run 0
      [CallOffer 10; CallOffer 20; CallOffer 30; CallOffer 40; CallOffer 50;
       CallPoll; CallOffer 50;
       CallPoll; CallPoll; CallPoll; CallPoll; CallPoll]
      (newNodeBased 0 4)
    = Done (r,
      [OfferResult true; OfferResult true; OfferResult true; OfferResult true;
       OfferResult false;
       PollResult 10 true; OfferResult true;
       PollResult 20 true; PollResult 30 true; PollResult 40 true;
       PollResult 50 true; PollResult 0 false]).
Proof. split; [reflexivity|]. eexists. vm_compute. reflexivity. Qed.

(** C1, as stated, fails for the capacities 1 and 3: two Offers on a
    fresh buffer of capacity 1 both succeed and leave tail - head = 2,
    and four Offers on a fresh buffer of capacity 3 all succeed and
    leave tail - head = 4. *)
Lemma counters_exceed_capacity :
  (exists r,
     run 0 [CallOffer 1; CallOffer 2] (newNodeBased 0 1)
       = Done (r, [OfferResult true; OfferResult true]) /\
     ~ (head r <= tail r /\ distance (tail r) (head r) <= 1)) /\
  (exists r,
     run 0 [CallOffer 1; CallOffer 2; CallOffer 3; CallOffer 4] (newNodeBased 0 3)
       = Done (r, [OfferResult true; OfferResult true; OfferResult true; OfferResult true]) /\
     ~ (head r <= tail r /\ distance (tail r) (head r) <= 3)).
Proof.
  split; eexists; (split; [vm_compute; reflexivity|]);
    intros [_ H]; vm_compute in H; apply H; reflexivity.
Qed.

(** C2, as stated, fails: on a buffer of capacity 4 (mask 3), the Poll
    that claims head position 0 stores the stamp 4, not 0 + 3. *)
Lemma Poll_stamp_is_not_head_plus_mask :
  exists r1 r2 nd,
    Offer (newNodeBased 0 4) 10 = Done (r1, true) /\
    head r1 = 0 /\ mask r1 = 3 /\
    Poll 0 r1 = Done (r2, 10, true) /\
    get_node r2 (Z.land (head r1) (mask r1)) = Some nd /\
    step nd = 4 /\ step nd <> head r1 + mask r1.
Proof.
  do 3 eexists. split; [vm_compute; reflexivity|].
  split; [reflexivity|]. split; [reflexivity|].
  split; [vm_compute; reflexivity|]. split; [vm_compute; reflexivity|].
  split; [reflexivity|]. vm_compute. discriminate.
Qed.


(** ** The theorems at concrete buffers *)

(** Capacity 4, with an Offer, a Poll and a batched poll. *)
Lemma counters_within_capacity_witness :
  exists r answers,
    run 0 [CallOffer 10; CallPoll; CallPollNBatched 2] (newNodeBased 0 (2 ^ 2))
      = Done (r, answers) /\
    distance (tail r) (head r) <= 2 ^ 2 /\
    exists H Tl, H <= Tl <= H + 2 ^ 2 /\ head r = u64 H /\ tail r = u64 Tl /\
      distance (tail r) (head r) = Tl - H.
Proof.
  apply (counters_within_capacity 0 2 [CallOffer 10; CallPoll; CallPollNBatched 2]).
  - lia.
  - repeat constructor; vm_compute; discriminate.
Defined.

(** Capacity 4: the Poll at head position 0 after one Offer. *)
Lemma Poll_rearms_slot_witness :
  exists nd,
    get_node (polled (offered (newNodeBased 0 4) 10) (mkNode 1 10)) (Z.land 0 3) = Some nd /\
    step nd = 4.
Proof.
  destruct (Poll_rearms_slot 0 (offered (newNodeBased 0 4) 10)
              (polled (offered (newNodeBased 0 4) 10) (mkNode 1 10)) 10 eq_refl)
    as (nd & G & Hs & _).
  exists nd. split; [exact G|exact Hs].
Defined.


(** Capacity 2 and the values 7, 8. *)
Lemma round_trip_witness :
  exists r1 r2, offerSeq [7; 8] (newNodeBased 0 (2 ^ 1)) = Some r1 /\
    pollSeq 0 (length [7; 8]) r1 = Some ([7; 8], r2) /\
    Poll 0 r2 = Done (r2, 0, false) /\
    forall v, exists r3, Offer r2 v = Done (r3, true).
Proof.
  apply (round_trip 0 1 [7; 8]).
  - lia.
  - reflexivity.
Defined.


(** A full buffer of capacity 2 refuses an Offer, a fresh one a Poll. *)
Lemma failure_leaves_buffer_unchanged_witness :
  (Offer (offered (offered (newNodeBased 0 2) 1) 2) 3
     = Done (offered (offered (newNodeBased 0 2) 1) 2, false) /\
   offered (offered (newNodeBased 0 2) 1) 2 = offered (offered (newNodeBased 0 2) 1) 2) /\
  (Poll 0 (newNodeBased 0 2) = Done (newNodeBased 0 2, 0, false) /\
   newNodeBased 0 2 = newNodeBased 0 2 /\ 0 = 0).
Proof.
  split; (split; [vm_compute; reflexivity|]).
  - apply (proj1 (failure_leaves_buffer_unchanged 0
             (offered (offered (newNodeBased 0 2) 1) 2) 3
             (offered (offered (newNodeBased 0 2) 1) 2) (newNodeBased 0 2) 0)).
    vm_compute. reflexivity.
  - apply (proj2 (failure_leaves_buffer_unchanged 0
             (newNodeBased 0 2) 0 (newNodeBased 0 2) (newNodeBased 0 2) 0)).
    vm_compute. reflexivity.
Defined.



(** Capacity 3, which is not a power of two. *)
Lemma slot_access_in_bounds_witness :
  (forall pos, 0 <= pos -> 0 <= Z.land pos (3 - 1) < 3) /\
  exists r answers,
    run 0 [CallOffer 1; CallOffer 2; CallPoll; CallPollNBatched 4] (newNodeBased 0 3)
      = Done (r, answers) /\
    mask r = 3 - 1 /\ Z.of_nat (length (element r)) = 3.
Proof.
  apply (slot_access_in_bounds 0 3 [CallOffer 1; CallOffer 2; CallPoll; CallPollNBatched 4]).
  - vm_compute. split; [discriminate|reflexivity].
  - repeat constructor; vm_compute; discriminate.
Defined.

(** ** The buffer against the bounded queue *)

Section Refinement.

Context {T : Type}.
Variable zero : T.
Variable k : Z.
Hypothesis k_range : 1 <= k <= 63.
Implicit Types (r : nodeBased T) (v : T) (q : list T).

Lemma Inv_perform_queue H q r c :
  Inv (2 ^ k) H q r -> call_ok c ->
  exists r' H',
    perform zero r c = Done (r', snd (queue_perform zero (2 ^ k) q c)) /\
    Inv (2 ^ k) H' (fst (queue_perform zero (2 ^ k) q c)) r'.
Proof.
  intros HI Hc. destruct c as [v| |n]; simpl.
  - destruct (Z.of_nat (length q) <? 2 ^ k) eqn:E; simpl.
    + apply Z.ltb_lt in E.
      destruct (Inv_Offer_free k k_range H q r v HI E) as [EO HI'].
      rewrite EO. eauto.
    + apply Z.ltb_ge in E.
      rewrite (Inv_Offer_full k k_range H q r v HI).
      * eauto.
      * destruct HI as (_ & _ & _ & _ & _ & ? & _). lia.
  - destruct q as [|v q]; simpl.
    + rewrite (Inv_Poll_empty zero k k_range H r HI). eauto.
    + destruct (Inv_Poll_ready zero k k_range H q r v HI) as (r' & E & HI').
      rewrite E. eauto.
  - destruct (Inv_PollNBatched zero k k_range H q r n HI Hc) as (r' & E & HI').
    rewrite E. exists r', (H + Z.of_nat (Nat.min (Z.to_nat n) (length q))).
    split.
    + do 3 f_equal. destruct (Nat.le_gt_cases (Z.to_nat n) (length q)).
      * now rewrite Nat.min_l.
      * rewrite Nat.min_r by lia. rewrite !take_ge by lia. reflexivity.
    + replace (drop (Z.to_nat n) q) with (drop (Nat.min (Z.to_nat n) (length q)) q);
        [assumption|].
      destruct (Nat.le_gt_cases (Z.to_nat n) (length q)).
      * now rewrite Nat.min_l.
      * rewrite Nat.min_r by lia. rewrite !drop_ge by lia. reflexivity.
Qed.

Lemma Inv_run_queue cs : forall H q r,
  Inv (2 ^ k) H q r -> Forall call_ok cs ->
  exists r' H',
    run zero cs r = Done (r', snd (queue_run zero (2 ^ k) cs q)) /\
    Inv (2 ^ k) H' (fst (queue_run zero (2 ^ k) cs q)) r'.
Proof.
  induction cs as [|c cs IH]; intros H q r HI Hok.
  - exists r, H. simpl. auto.
  - inversion Hok as [|? ? Hc Hcs]; subst.
    destruct (Inv_perform_queue H q r c HI Hc) as (r1 & H1 & E1 & HI1).
    simpl. destruct (queue_perform zero (2 ^ k) q c) as [q1 a] eqn:Eq.
    simpl in E1, HI1.
    destruct (IH H1 q1 r1 HI1 Hcs) as (r' & H' & E & HI').
    destruct (queue_run zero (2 ^ k) cs q1) as [q2 answers] eqn:Eq2.
    simpl in E, HI' |- *. rewrite E1, E. eauto.
Qed.


(** X2: in every buffer reached from a fresh one of a capacity that is
    a power of two and at least 2, the slots of the positions from head
    up to tail carry the stamp "position + 1" (published), and the
    slots of the rest of the ring carry the stamp "position" (free). *)
Theorem published_window cs r answers d :
  Forall call_ok cs ->
  run zero cs (newNodeBased zero (2 ^ k)) = Done (r, answers) ->
  0 <= d < 2 ^ k ->
  exists nd, get_node r (Z.land (u64 (head r + d)) (mask r)) = Some nd /\
    step nd = if d <? distance (tail r) (head r)
              then u64 (head r + d + 1) else u64 (head r + d).
Proof.
  intros Hok E Hd.
  destruct (Inv_run zero k k_range cs 0 [] _ (Inv_new zero k k_range) Hok)
    as (r0 & answers0 & H & q & E0 & HI).
  rewrite E in E0. inversion E0; subst r0 answers0.
  rewrite (Inv_distance k k_range H q r HI).
  destruct HI as (Hm & Hl & HH & Hh & Ht & Hq & Hs).
  destruct (Hs (H + d) ltac:(lia)) as (nd & G & Hpub & Hfree).
  exists nd. split.
  - rewrite Hm, Hh, u64_add_l, (land_mask k k_range), (u64_mod_C k k_range). exact G.
  - rewrite Hh. destruct (d <? Z.of_nat (length q)) eqn:Ed.
    + apply Z.ltb_lt in Ed. destruct (Hpub ltac:(lia)) as [-> _].
      rewrite <- (Z.add_assoc (u64 H)), u64_add_l. f_equal. lia.
    + apply Z.ltb_ge in Ed. rewrite u64_add_l. apply Hfree. lia.
Qed.

End Refinement.

(** ** Capacities at the edge, and how batched polls compose *)

Section Edges.

Context {T : Type}.
Variable zero : T.
Implicit Types (r : nodeBased T) (nd : node T) (v : T).

(** X3: a buffer constructed with capacity 0 has no slot and the mask
    2^64 - 1: Offer and Poll panic on their first slot access, and so
    does PollNBatched for every n other than 0. *)
Theorem capacity_zero_panics :
  (forall v, Offer (newNodeBased zero 0) v = Panic) /\
  Poll zero (newNodeBased zero 0) = Panic /\
  (forall fuel n, 0 < n < modulus ->
     PollNBatched (S fuel) (newNodeBased zero 0) n = Panic).
Proof.
  split; [|split].
  - intros v. reflexivity.
  - reflexivity.
  - intros fuel n Hn. unfold PollNBatched.
    destruct (n =? 0) eqn:E; [apply Z.eqb_eq in E; lia|].
    cbn [PollNBatched_loop]. rewrite (proj2 (Z.ltb_lt 0 n)) by lia.
    rewrite Z.sub_0_r, (u64_small n) by lia.
    unfold scan_fuel. cbn [scan]. rewrite (proj2 (Z.ltb_lt 0 n)) by lia.
    reflexivity.
Qed.



(** The single slot of a buffer of capacity 1 carries, after every
    Offer, the stamp the next Offer looks for. *)
Lemma capacity_one_offerSeq vs : forall r nd,
  mask r = 0 -> element r = [nd] -> step nd = tail r -> 0 <= tail r < modulus ->
  exists r' nd', offerSeq vs r = Some r' /\
    mask r' = 0 /\ element r' = [nd'] /\ step nd' = tail r' /\
    head r' = head r /\ tail r' = u64 (tail r + Z.of_nat (length vs)).
Proof.
  induction vs as [|v vs IH]; intros r nd Hm He Hs Hr.
  - exists r, nd. simpl. rewrite Z.add_0_r, u64_small by assumption. auto 10.
  - assert (EO : Offer r v = Done (offered r v, true)).
    { apply (Offer_free r v nd); [|assumption].
      unfold get_node. rewrite Hm, Z.land_0_r, He. reflexivity. }
    destruct (IH (offered r v) (mkNode (u64 (tail r + 1)) v))
      as (r' & nd' & E & Hm' & He' & Hs' & Hh' & Ht').
    + exact Hm.
    + unfold offered; simpl. rewrite Hm, Z.land_0_r, He. reflexivity.
    + reflexivity.
    + apply u64_range.
    + exists r', nd'. simpl. rewrite EO.
      repeat split; try assumption.
      rewrite Ht'. unfold offered; simpl. rewrite u64_add_l.
      f_equal. lia.
Qed.

(** X5: a buffer of capacity 1 never reports that it is full.  Any
    number of Offers on a fresh one all succeed, each overwriting the
    single slot; and once two or more values were offered, Poll fails:
    the values offered are lost. *)
Theorem capacity_one_never_full (vs : list T) :
  exists r', offerSeq vs (newNodeBased zero 1) = Some r' /\
    head r' = 0 /\ tail r' = u64 (Z.of_nat (length vs)) /\
    (2 <= Z.of_nat (length vs) < modulus ->
     Poll zero r' = Done (r', zero, false)).
Proof.
  destruct (capacity_one_offerSeq vs (newNodeBased zero 1) (mkNode 0 zero)
              eq_refl eq_refl eq_refl)
    as (r' & nd' & E & Hm & He & Hs & Hh & Ht).
  { simpl. rewrite modulus_eq. lia. }
  change (tail (newNodeBased zero 1)) with 0 in Ht. rewrite Z.add_0_l in Ht.
  change (head (newNodeBased zero 1)) with 0 in Hh.
  exists r'. split; [assumption|]. split; [assumption|]. split; [assumption|].
  intros Hlen. apply (Poll_not_ready zero r' nd').
  - unfold get_node. rewrite Hm, Z.land_0_r, He. reflexivity.
  - rewrite Hs, Ht, Hh, (u64_small (Z.of_nat (length vs))) by lia.
    change (u64 (0 + 1)) with 1. lia.
Qed.

Lemma pollSeq_head j : forall r vs r',
  pollSeq zero j r = Some (vs, r') -> head r' = u64 (head r + Z.of_nat j) \/ j = 0%nat /\ r' = r.
Proof.
  induction j as [|j IH]; intros r vs r'; simpl.
  - intros E. inversion E; subst. now right.
  - destruct (Poll zero r) as [[[r1 v] [|]]| |] eqn:E; try discriminate.
    destruct (pollSeq zero j r1) as [[vs1 r2]|] eqn:E1; try discriminate.
    intros E2. inversion E2; subst. left.
    apply Poll_cases in E as (nd & G & [(_ & Hs & -> & _)|(? & _)]); [|discriminate].
    destruct (IH _ _ _ E1) as [->|[-> ->]].
    + unfold polled; simpl. rewrite u64_add_l. f_equal. lia.
    + reflexivity.
Qed.

(** X6: PollNBatched advances head by exactly the count it returns and
    leaves tail, the mask and the number of slots as they were. *)
Theorem PollNBatched_moves_head_by_count r n fuel r' vs cnt :
  bounds r -> 0 <= n < modulus -> (Z.to_nat n < fuel)%nat ->
  PollNBatched fuel r n = Done (r', vs, cnt) ->
  head r' = u64 (head r + cnt) /\ tail r' = tail r /\
  mask r' = mask r /\ length (element r') = length (element r).
Proof.
  intros Hb Hn Hf E.
  destruct (PollNBatched_drains zero r n fuel Hb Hn Hf) as (j & vs0 & r0 & Hj & ES & _ & E0).
  rewrite E in E0. inversion E0; subst r0 vs0 cnt.
  destruct (pollSeq_shape zero j r vs r' ES) as (Hm & Hl & Ht).
  split; [|auto].
  destruct (pollSeq_head j r vs r' ES) as [->|[-> ->]]; [reflexivity|].
  simpl. rewrite Z.add_0_r. symmetry. apply u64_small, Hb.
Qed.


End Edges.

(** ** The single-consumer wrappers *)

Section Consumer.

Context {T S : Type}.
Variable zero : T.
Variable valueConsumer : S -> T -> S.
Implicit Types (r : nodeBased T) (v : T) (s : S).

Lemma SingleConsumerPoll_sound fuel : forall s r r' s',
  SingleConsumerPoll zero fuel valueConsumer s r = Done (r', s') ->
  exists vs, pollSeq zero (length vs) r = Some (vs, r') /\
    Poll zero r' = Done (r', zero, false) /\
    s' = fold_left valueConsumer vs s.
Proof.
  induction fuel as [|fuel IH]; intros s r r' s'; simpl.
  - discriminate.
  - destruct (Poll zero r) as [[[r1 v] [|]]| |] eqn:EP; simpl; try discriminate.
    + intros E. destruct (IH _ _ _ _ E) as (vs & ES & EF & ->).
      exists (v :: vs). simpl. rewrite EP, ES. auto.
    + intros E. injection E as -> ->. exists []. simpl.
      apply Poll_cases in EP as (nd & G & [(? & _)|(_ & Hs & -> & _)]); [discriminate|].
      repeat split. now apply (Poll_not_ready zero r nd).
Qed.

Lemma SingleConsumerPoll_complete (vs : list T) : forall fuel s r r',
  (length vs < fuel)%nat ->
  pollSeq zero (length vs) r = Some (vs, r') ->
  Poll zero r' = Done (r', zero, false) ->
  SingleConsumerPoll zero fuel valueConsumer s r
    = Done (r', fold_left valueConsumer vs s).
Proof.
  induction vs as [|v vs IH]; intros fuel s r r' Hf ES EF;
    (destruct fuel as [|fuel]; [simpl in Hf; lia|]); simpl in *.
  - inversion ES; subst. rewrite EF. reflexivity.
  - destruct (Poll zero r) as [[[r1 v1] [|]]| |] eqn:EP; try discriminate.
    destruct (pollSeq zero (length vs) r1) as [[vs1 r2]|] eqn:ES1; try discriminate.
    inversion ES; subst. simpl. apply IH; [lia|assumption|assumption].
Qed.

(** X8: SingleConsumerPoll returns exactly when a Poll fails: it hands
    the consumer, in the order of the polls, the values of the
    successful Polls before that one, and nothing else, and leaves the
    buffer as those Polls leave it. *)
Theorem SingleConsumerPoll_returns_when_empty s r r' s' :
  (exists fuel, SingleConsumerPoll zero fuel valueConsumer s r = Done (r', s')) <->
  (exists vs, pollSeq zero (length vs) r = Some (vs, r') /\
     Poll zero r' = Done (r', zero, false) /\
     s' = fold_left valueConsumer vs s).
Proof.
  split.
  - intros [fuel E]. now apply (SingleConsumerPoll_sound fuel s r r' s').
  - intros (vs & ES & EF & ->). exists (Datatypes.S (length vs)).
    apply SingleConsumerPoll_complete; auto.
Qed.

(** The loop of [SingleConsumerPollVec], entered with [c] slots of
    [ret] filled, writes the values of the next successful polls behind
    them. *)
Lemma SingleConsumerPollVec_loop_spec j : forall fuel r (ret : list T) c vs r',
  (c + j <= length ret)%nat -> (length ret - c < fuel)%nat ->
  pollSeq zero j r = Some (vs, r') ->
  ((c + j)%nat = length ret \/ Poll zero r' = Done (r', zero, false)) ->
  SingleConsumerPollVec_loop zero fuel r ret (Z.of_nat c)
    = Done (r', take c ret ++ vs ++ drop (c + j) ret, Z.of_nat (c + j)).
Proof.
  induction j as [|j IH]; intros fuel r ret c vs r' Hc Hf ES Hend;
    (destruct fuel as [|fuel]; [lia|]); cbn [SingleConsumerPollVec_loop].
  - simpl in ES. inversion ES; subst. rewrite Nat.add_0_r in *.
    rewrite app_nil_l, take_drop. destruct Hend as [Hfull|Hfail].
    + rewrite (proj2 (Z.ltb_ge _ _)) by lia. reflexivity.
    + destruct (Z.of_nat c <? Z.of_nat (length ret)); [|reflexivity].
      rewrite Hfail. reflexivity.
  - rewrite (proj2 (Z.ltb_lt _ _)) by lia. simpl in ES.
    destruct (Poll zero r) as [[[r1 v] [|]]| |] eqn:EP; try discriminate.
    destruct (pollSeq zero j r1) as [[vs1 r2]|] eqn:ES1; try discriminate.
    inversion ES; subst. cbn [negb].
    replace (Z.of_nat c + 1) with (Z.of_nat (Datatypes.S c)) by lia.
    rewrite Nat2Z.id.
    rewrite (IH fuel r1 (<[c:=v]> ret) (Datatypes.S c) vs1 r').
    + rewrite (take_S_r _ c v) by (apply list_lookup_insert_eq; lia).
      rewrite take_insert_ge by lia. rewrite drop_insert_lt by lia.
      rewrite <- app_assoc. simpl.
      replace (Datatypes.S (c + j)) with (c + Datatypes.S j)%nat by lia. reflexivity.
    + rewrite length_insert. lia.
    + rewrite length_insert. lia.
    + assumption.
    + rewrite length_insert. destruct Hend; [left; lia|now right].
Qed.

(** X9: SingleConsumerPollVec fills the front of the caller's slice
    with the values of the successful sequential Polls, as many as the
    slice is long or as succeed, leaves the rest of the slice as it
    was, and returns their number; the slice keeps its length, and the
    buffer is left as those Polls leave it. *)
Theorem SingleConsumerPollVec_fills_front r (ret : list T) fuel :
  bounds r -> Z.of_nat (length ret) < modulus -> (length ret < fuel)%nat ->
  exists j vs r', (j <= length ret)%nat /\
    pollSeq zero j r = Some (vs, r') /\
    (j = length ret \/ Poll zero r' = Done (r', zero, false)) /\
    SingleConsumerPollVec zero fuel r ret = Done (r', vs ++ drop j ret, Z.of_nat j) /\
    length (vs ++ drop j ret) = length ret.
Proof.
  intros Hb Hlen Hf.
  destruct (pollSeq_total zero (length ret) r Hb) as (j & vs & r' & Hj & ES & Hend).
  exists j, vs, r'. repeat split; try assumption.
  - assert (Hend' : (0 + j)%nat = length ret \/ Poll zero r' = Done (r', zero, false)).
    { destruct Hend; [left; lia|now right]. }
    unfold SingleConsumerPollVec. change 0 with (Z.of_nat 0).
    rewrite (SingleConsumerPollVec_loop_spec j fuel r ret 0 vs r'
               ltac:(lia) ltac:(lia) ES Hend').
    simpl. rewrite u64_small by lia. reflexivity.
  - destruct (pollSeq_bounds zero j r vs r' Hb ES) as [_ Hl].
    rewrite length_app, length_drop, Hl. lia.
Qed.

(** X10: for a slice of length n, SingleConsumerPollVec obtains the
    values, the count and the final buffer that PollNBatched(n)
    obtains. *)
Theorem SingleConsumerPollVec_matches_PollNBatched r (ret : list T) fuel1 fuel2 r' vs cnt :
  bounds r -> Z.of_nat (length ret) < modulus ->
  (length ret < fuel1)%nat -> (length ret < fuel2)%nat ->
  PollNBatched fuel1 r (Z.of_nat (length ret)) = Done (r', vs, cnt) ->
  SingleConsumerPollVec zero fuel2 r ret
    = Done (r', vs ++ drop (Z.to_nat cnt) ret, cnt).
Proof.
  intros Hb Hlen Hf1 Hf2 E.
  destruct (PollNBatched_drains zero r (Z.of_nat (length ret)) fuel1 Hb ltac:(lia) ltac:(lia))
    as (j & vs0 & r0 & Hj & ES & Hend & E0).
  rewrite E in E0. injection E0 as -> -> ->.
  assert (Hend' : (0 + j)%nat = length ret \/ Poll zero r0 = Done (r0, zero, false)).
  { destruct Hend; [left; lia|now right]. }
  unfold SingleConsumerPollVec. change 0 with (Z.of_nat 0).
  rewrite (SingleConsumerPollVec_loop_spec j fuel2 r ret 0 vs0 r0
             ltac:(lia) ltac:(lia) ES Hend').
  simpl. rewrite u64_small, Nat2Z.id by lia. reflexivity.
Qed.

End Consumer.

(** ** The wrappers on a buffer of a capacity that is a power of two *)

Section Wrappers.

Context {T S S' : Type}.
Variable zero : T.
Variable valueSupplier : S -> (T * bool) * S.
Variable valueConsumer : S' -> T -> S'.
Variable k : Z.
Hypothesis k_range : 1 <= k <= 63.
Implicit Types (r : nodeBased T) (v : T) (q : list T).

Lemma Inv_SingleConsumerPoll H q r (t : S') :
  Inv (2 ^ k) H q r ->
  exists r', SingleConsumerPoll zero (Datatypes.S (length q)) valueConsumer t r
      = Done (r', fold_left valueConsumer q t) /\
    Inv (2 ^ k) (H + Z.of_nat (length q)) [] r'.
Proof.
  intros HI.
  destruct (Inv_pollSeq zero k k_range (length q) H q r HI ltac:(lia)) as (r' & ES & HI').
  rewrite firstn_all in ES. rewrite drop_all in HI'.
  exists r'. split; [|assumption].
  apply SingleConsumerPoll_complete; [lia|assumption|].
  apply (Inv_Poll_empty zero k k_range _ r' HI').
Qed.

(** X11: after any calls on a fresh buffer, SingleConsumerPoll with
    fuel for one Poll more than the values queued returns, has handed
    the consumer exactly the queued values, oldest first, and leaves
    the buffer empty, tail equal to head. *)
Theorem SingleConsumerPoll_drains_queue cs r answers (t : S') :
  Forall call_ok cs ->
  run zero cs (newNodeBased zero (2 ^ k)) = Done (r, answers) ->
  exists r',
    SingleConsumerPoll zero
      (Datatypes.S (length (fst (queue_run zero (2 ^ k) cs [])))) valueConsumer t r
      = Done (r', fold_left valueConsumer (fst (queue_run zero (2 ^ k) cs [])) t) /\
    tail r' = head r'.
Proof.
  intros Hok E.
  destruct (Inv_run_queue zero k k_range cs 0 [] _ (Inv_new zero k k_range) Hok)
    as (r0 & H & E0 & HI).
  rewrite E in E0. injection E0 as <- _.
  destruct (Inv_SingleConsumerPoll H _ r t HI) as (r' & ES & HI').
  exists r'. split; [assumption|].
  destruct HI' as (_ & _ & _ & Hh & Ht & _). rewrite Hh, Ht. simpl.
  now rewrite Z.add_0_r.
Qed.

(** X12: the two wrappers make a round trip.  When the supplier hands
    out the values vs, no more of them than the capacity, and then
    reports completion, SingleProducerOffer on a fresh buffer returns,
    and SingleConsumerPoll then hands the consumer exactly vs, in the
    order of the supplier, and leaves the buffer empty. *)
Theorem producer_then_consumer (vs : list T) vlast (s s' : S) (t : S') :
  Z.of_nat (length vs) <= 2 ^ k ->
  supplier_run valueSupplier (Datatypes.S (length vs)) s
    = (map (fun v => (v, false)) vs ++ [(vlast, true)], s') ->
  exists r1 r2,
    SingleProducerOffer (Datatypes.S (length vs)) valueSupplier s
      (newNodeBased zero (2 ^ k)) = Done (r1, s') /\
    SingleConsumerPoll zero (Datatypes.S (length vs)) valueConsumer t r1
      = Done (r2, fold_left valueConsumer vs t) /\
    tail r2 = head r2.
Proof.
  intros Hlen Hsup.
  destruct (Inv_offerSeq k k_range vs 0 [] _ (Inv_new zero k k_range)) as (r1 & EO & HI1).
  { simpl. lia. }
  simpl in HI1.
  destruct (Inv_SingleConsumerPoll 0 vs r1 t HI1) as (r2 & EC & HI2).
  exists r1, r2. split; [|split; [assumption|]].
  - apply (SingleProducerOffer_complete valueSupplier vs vlast); auto.
  - destruct HI2 as (_ & _ & _ & Hh & Ht & _). rewrite Hh, Ht. simpl.
    now rewrite Z.add_0_r.
Qed.

Lemma spinOffer_busy fuel r v :
  Offer r v = Done (r, false) -> spinOffer fuel r v = Spin.
Proof.
  intros E. induction fuel as [|fuel IH]; simpl; [reflexivity|].
  rewrite E. exact IH.
Qed.

Lemma Inv_SingleProducerOffer_spins fuel : forall (vs : list T) H q r (s s1 : S),
  Inv (2 ^ k) H q r ->
  supplier_run valueSupplier (length vs) s = (map (fun v => (v, false)) vs, s1) ->
  2 ^ k < Z.of_nat (length q) + Z.of_nat (length vs) ->
  SingleProducerOffer fuel valueSupplier s r = Spin.
Proof.
  induction fuel as [|fuel IH]; intros vs H q r s s1 HI Hsup Hlen; [reflexivity|].
  assert (Hq : Z.of_nat (length q) <= 2 ^ k) by (destruct HI as (_ & _ & _ & _ & _ & ? & _); lia).
  destruct vs as [|v vs]; [simpl in Hlen; lia|].
  cbn [length supplier_run map] in Hsup. cbn [SingleProducerOffer].
  destruct (valueSupplier s) as [[v0 f0] s2].
  destruct (supplier_run valueSupplier (length vs) s2) as [rest s3] eqn:Er.
  injection Hsup as -> -> Hrest ->.
  destruct (Z_lt_le_dec (Z.of_nat (length q)) (2 ^ k)) as [Hlt|Hge].
  - destruct (Inv_Offer_free k k_range H q r v HI Hlt) as [EO HI'].
    destruct fuel as [|fuel']; [reflexivity|].
    cbn [spinOffer]. rewrite EO.
    apply (IH vs H (q ++ [v]) (offered r v) s2 s1 HI').
    + rewrite Er, Hrest. reflexivity.
    + rewrite length_app. simpl in *. lia.
  - rewrite (spinOffer_busy fuel r v); [reflexivity|].
    apply (Inv_Offer_full k k_range H q r v HI). lia.
Qed.

(** X13: with no other thread polling, SingleProducerOffer never
    returns when the supplier hands out more values than the capacity
    before it reports completion: on a fresh buffer it is still
    spinning on Offer whatever the fuel. *)
Theorem SingleProducerOffer_spins_when_full (vs : list T) (s s1 : S) fuel :
  2 ^ k < Z.of_nat (length vs) ->
  supplier_run valueSupplier (length vs) s = (map (fun v => (v, false)) vs, s1) ->
  SingleProducerOffer fuel valueSupplier s (newNodeBased zero (2 ^ k)) = Spin.
Proof.
  intros Hlen Hsup.
  apply (Inv_SingleProducerOffer_spins fuel vs 0 [] _ s s1 (Inv_new zero k k_range) Hsup).
  simpl. lia.
Qed.

End Wrappers.

(** ** The further theorems at concrete buffers *)


(** Capacity 4 after one Offer: the slot of position 0 is published. *)
Lemma published_window_witness :
  exists nd,
    get_node (offered (newNodeBased 0 4) 10)
      (Z.land (u64 (head (offered (newNodeBased 0 4) 10) + 0))
              (mask (offered (newNodeBased 0 4) 10))) = Some nd /\
    step nd = 1.
Proof.
  apply (published_window 0 2 ltac:(lia) [CallOffer 10]
           (offered (newNodeBased 0 4) 10) [OfferResult true] 0).
  - repeat constructor.
  - reflexivity.
  - lia.
Defined.

Lemma capacity_zero_panics_witness :
  PollNBatched 1 (newNodeBased 0 0) 5 = Panic.
Proof.
  apply (proj2 (proj2 (capacity_zero_panics 0)) 0%nat 5).
  vm_compute. split; reflexivity.
Defined.


(** Three Offers on capacity 1, and the Poll after them. *)
Lemma capacity_one_never_full_witness :
  exists r', offerSeq [7; 8; 9] (newNodeBased 0 1) = Some r' /\
    Poll 0 r' = Done (r', 0, false).
Proof.
  destruct (capacity_one_never_full 0 [7; 8; 9]) as (r' & E & _ & _ & HP).
  exists r'. split; [exact E|]. apply HP.
  vm_compute. split; [discriminate|reflexivity].
Defined.

(** Capacity 4 with two published values, asked for three. *)
Lemma PollNBatched_moves_head_by_count_witness :
  head (polled (polled (offered (offered (newNodeBased 0 4) 10) 20)
                  (mkNode 1 10)) (mkNode 2 20))
    = u64 (head (offered (offered (newNodeBased 0 4) 10) 20) + 2).
Proof.
  apply (PollNBatched_moves_head_by_count 0
           (offered (offered (newNodeBased 0 4) 10) 20) 3 4
           (polled (polled (offered (offered (newNodeBased 0 4) 10) 20)
                      (mkNode 1 10)) (mkNode 2 20))
           [10; 20] 2).
  - vm_compute. repeat split; discriminate.
  - vm_compute. split; [discriminate|reflexivity].
  - vm_compute. lia.
  - reflexivity.
Defined.


(** A consumer that appends what it is handed to a list. *)
Lemma SingleConsumerPoll_returns_when_empty_witness :
  exists fuel,
    SingleConsumerPoll 0 fuel (fun (acc : list Z) v => acc ++ [v]) []
      (offered (offered (newNodeBased 0 4) 10) 20)
    = Done (polled (polled (offered (offered (newNodeBased 0 4) 10) 20)
                      (mkNode 1 10)) (mkNode 2 20),
            [10; 20]).
Proof.
  apply (proj2 (SingleConsumerPoll_returns_when_empty 0
           (fun (acc : list Z) v => acc ++ [v]) []
           (offered (offered (newNodeBased 0 4) 10) 20)
           (polled (polled (offered (offered (newNodeBased 0 4) 10) 20)
                      (mkNode 1 10)) (mkNode 2 20))
           [10; 20])).
  exists [10; 20]. repeat split; reflexivity.
Defined.

(** Two published values and a slice of three. *)
Lemma SingleConsumerPollVec_fills_front_witness :
  exists j vs r', (j <= length [0; 0; 0])%nat /\
    pollSeq 0 j (offered (offered (newNodeBased 0 4) 10) 20) = Some (vs, r') /\
    (j = length [0; 0; 0] \/ Poll 0 r' = Done (r', 0, false)) /\
    SingleConsumerPollVec 0 4 (offered (offered (newNodeBased 0 4) 10) 20) [0; 0; 0]
      = Done (r', vs ++ drop j [0; 0; 0], Z.of_nat j) /\
    length (vs ++ drop j [0; 0; 0]) = length [0; 0; 0].
Proof.
  apply (SingleConsumerPollVec_fills_front 0
           (offered (offered (newNodeBased 0 4) 10) 20) [0; 0; 0] 4).
  - vm_compute. repeat split; discriminate.
  - vm_compute. reflexivity.
  - vm_compute. lia.
Defined.

Lemma SingleConsumerPollVec_matches_PollNBatched_witness :
  SingleConsumerPollVec 0 4 (offered (offered (newNodeBased 0 4) 10) 20) [0; 0; 0]
    = Done (polled (polled (offered (offered (newNodeBased 0 4) 10) 20)
                      (mkNode 1 10)) (mkNode 2 20),
            [10; 20] ++ drop (Z.to_nat 2) [0; 0; 0], 2).
Proof.
  apply (SingleConsumerPollVec_matches_PollNBatched 0
           (offered (offered (newNodeBased 0 4) 10) 20) [0; 0; 0] 4 4).
  - vm_compute. repeat split; discriminate.
  - vm_compute. reflexivity.
  - vm_compute. lia.
  - vm_compute. lia.
  - reflexivity.
Defined.

Lemma SingleConsumerPoll_drains_queue_witness :
  exists r',
    SingleConsumerPoll 0
      (S (length (fst (queue_run 0 (2 ^ 2) [CallOffer 10; CallOffer 20] []))))
      (fun (acc : list Z) v => acc ++ [v]) []
      (offered (offered (newNodeBased 0 4) 10) 20)
      = Done (r', fold_left (fun (acc : list Z) v => acc ++ [v])
                    (fst (queue_run 0 (2 ^ 2) [CallOffer 10; CallOffer 20] [])) []) /\
    tail r' = head r'.
Proof.
  apply (SingleConsumerPoll_drains_queue 0 (fun (acc : list Z) v => acc ++ [v]) 2
           ltac:(lia) [CallOffer 10; CallOffer 20]
           (offered (offered (newNodeBased 0 4) 10) 20)
           [OfferResult true; OfferResult true] []).
  - repeat constructor.
  - reflexivity.
Defined.

(** A supplier that counts down from its state and reports completion
    at 0, and a consumer that appends what it is handed to a list. *)
Lemma producer_then_consumer_witness :
  exists r1 r2,
    SingleProducerOffer (S (length [2; 1]))
      (fun s : nat => match s with O => ((0, true), O) | S s' => ((Z.of_nat s, false), s') end)
      2%nat (newNodeBased 0 (2 ^ 2)) = Done (r1, 0%nat) /\
    SingleConsumerPoll 0 (S (length [2; 1])) (fun (acc : list Z) v => acc ++ [v]) [] r1
      = Done (r2, fold_left (fun (acc : list Z) v => acc ++ [v]) [2; 1] []) /\
    tail r2 = head r2.
Proof.
  apply (producer_then_consumer 0
           (fun s : nat => match s with O => ((0, true), O) | S s' => ((Z.of_nat s, false), s') end)
           (fun (acc : list Z) v => acc ++ [v]) 2 ltac:(lia) [2; 1] 0 2%nat 0%nat []).
  - vm_compute. discriminate.
  - reflexivity.
Defined.

(** Three values for a buffer of capacity 2. *)
Lemma SingleProducerOffer_spins_when_full_witness :
  SingleProducerOffer 100
    (fun s : nat => match s with O => ((0, true), O) | S s' => ((Z.of_nat s, false), s') end)
    3%nat (newNodeBased 0 (2 ^ 1)) = Spin.
Proof.
  apply (SingleProducerOffer_spins_when_full 0
           (fun s : nat => match s with O => ((0, true), O) | S s' => ((Z.of_nat s, false), s') end)
           1 ltac:(lia) [3; 2; 1] 3%nat 0%nat 100).
  - vm_compute. reflexivity.
  - reflexivity.
Defined.
